(** * Phonebook.c: a chained hash table of contacts

    A shallow embedding of [src/Phonebook.c] and the properties of its hash
    function and of its insert, search, delete and display operations.

    Conventions of the embedding.

    - A C string ([const char *], [char name[50]]) is modelled by its
      content: the list of bytes in front of the terminating NUL.  The end of
      the list plays the role of the terminator, and the byte 0 does not
      occur in a content.
    - A bucket's singly linked list of [ContactNode]s is a [list]: the head
      of the list is the node the bucket pointer designates, the tail is what
      [next] designates, [NULL] is [[]].
    - The bucket array [ContactNode **table] is a [list] of chains that is
      read and written by index.
    - What the program prints is a list of [output] events, one per [printf]
      or [perror] call, carrying the arguments of the call.
    - [malloc] may fail: an operation that allocates takes the outcome of the
      allocation as a boolean argument.
    - The width of [unsigned long] and the signedness of plain [char] are
      implementation-defined in C; they are the two fields of an [ABI]. *)

From Stdlib Require Import ZArith Lia List.
From Stdlib Require Import Strings.Byte.
From stdpp Require Import list.

Local Open Scope Z_scope.

(** ** The platform *)

Inductive LongWidth := Long32 | Long64.

Record ABI := {
  abi_long : LongWidth;       (* width of [unsigned long] *)
  abi_char_signed : bool      (* is plain [char] a signed type? *)
}.

(** x86-64 System V (Linux, gcc or clang): LP64, plain [char] signed. *)
Definition x86_64_sysv : ABI := {| abi_long := Long64; abi_char_signed := true |}.
(** AArch64 Linux: LP64, plain [char] unsigned. *)
Definition aarch64_linux : ABI := {| abi_long := Long64; abi_char_signed := false |}.
(** 64-bit Windows: LLP64 ([unsigned long] has 32 bits), plain [char] signed. *)
Definition x64_windows : ABI := {| abi_long := Long32; abi_char_signed := true |}.

(** [int] and [unsigned int] have 32 bits on all of them. *)
Definition INT_MAX : Z := 2147483647.
Definition to_uint (z : Z) : Z := z mod 2 ^ 32.

(** ** Constants of the program *)

Definition TABLE_SIZE : Z := 100.
Definition MAX_NAME_LEN : nat := 50.
Definition MAX_PHONE_LEN : nat := 15.

(** ** Bytes and C strings *)

Definition cstring := list byte.

#[global] Instance byte_eq_dec : EqDecision byte := Byte.byte_eq_dec.

(** The value of a byte read as [unsigned char]. *)
Definition byte_unsigned (b : byte) : Z := Z.of_N (Byte.to_N b).

(** [strcmp]: zero on equal strings, otherwise the sign of the difference of
    the first two bytes that differ, read as [unsigned char]; a string that
    ends first compares smaller. *)
Fixpoint strcmp (s1 s2 : cstring) : Z :=
  match s1, s2 with
  | [], [] => 0
  | [], _ :: _ => -1
  | _ :: _, [] => 1
  | c1 :: r1, c2 :: r2 =>
      if Byte.eqb c1 c2 then strcmp r1 r2
      else if byte_unsigned c1 <? byte_unsigned c2 then -1 else 1
  end.

(** [strncpy(dst, src, n); dst[n] = '\0';] for a buffer [dst] of [n + 1]
    bytes: the string left in [dst] is [src] cut after [n] bytes. *)
Definition strncpy_nul (src : cstring) (n : nat) : cstring := take n src.

(** ** Data model *)

(** [struct ContactNode]; the field [next] is the tail of the chain.  The
    fields live in a module so that they can be named next to the operations'
    parameters [name] and [phone]. *)
Module ContactNode.
Record t := {
  name : cstring;
  phone : cstring
}.
End ContactNode.
Abbreviation ContactNode := ContactNode.t.

(** [struct HashTable]. *)
Record HashTable := {
  size : Z;
  table : list (list ContactNode)
}.

(** One event per [printf] / [perror] call of the table operations. *)
Inductive output :=
| OutAdded (name phone : cstring)          (* "SUCCESS: Added '%s' with phone '%s'." *)
| OutAllocFailed                           (* perror("Failed to allocate ContactNode") *)
| OutDeleted (name : cstring)              (* "SUCCESS: Deleted '%s'." *)
| OutNotFound (name : cstring)             (* "ERROR: Contact '%s' not found." *)
| OutHeader                                (* "--- Phonebook Contacts ---" *)
| OutBucket (i : Z)                        (* "Bucket[%d]:" *)
| OutEntry (name phone : cstring)          (* "  -> Name: %-20s | Phone: %s" *)
| OutEmpty                                 (* "Phonebook is empty." *)
| OutFooter.                               (* "-----------" *)

(** The two size conditions of a concrete table, by evaluation. *)
Ltac wf_by_computation :=
  split; [vm_compute; split; [reflexivity | discriminate]
         | vm_compute; reflexivity].

Section Phonebook.

Variable abi : ABI.

Definition ULONG_BITS : Z :=
  match abi_long abi with Long32 => 32 | Long64 => 64 end.

(** Conversion to [unsigned long]: reduction modulo [2 ^ ULONG_BITS]. *)
Definition to_ulong (z : Z) : Z := z mod 2 ^ ULONG_BITS.

(** [int c = *name]: a plain [char] converted to [int]. *)
Definition char_to_int (b : byte) : Z :=
  let u := byte_unsigned b in
  if abi_char_signed abi && (128 <=? u) then u - 256 else u.

(** ** [hashFunction] *)

(** The loop [while ((c = *name++)) hash = ((hash << 5) + hash) + c;].  The
    shift, the two additions and the conversion of [c] are all done in
    [unsigned long]. *)
Fixpoint hash_loop (name : cstring) (hash : Z) : Z :=
  match name with
  | [] => hash
  | b :: name' =>
      let c := char_to_int b in
      hash_loop name'
        (to_ulong (to_ulong (to_ulong (Z.shiftl hash 5) + hash) + to_ulong c))
  end.

(** [return hash % tableSize;]: [tableSize] is converted to [unsigned long]
    for the division and the remainder to [unsigned int] for the return.
    ([tableSize = 0] is undefined behaviour in C; the operations below are
    only specified for tables with a positive size.) *)
Definition hashFunction (name : cstring) (tableSize : Z) : Z :=
  let hash := hash_loop name 5381 in
  to_uint (hash mod to_ulong tableSize).

(** The reference djb2 hash as the specification words it: the accumulator
    starts at 5381, each byte [c] (valued by [val]) turns it into
    [accumulator * 33 + c] modulo [2 ^ N], and the index is the final
    accumulator modulo the bucket count. *)
Definition djb2_step (val : byte -> Z) (N : Z) (acc : Z) (b : byte) : Z :=
  (acc * 33 + val b) mod 2 ^ N.

Definition djb2_ref (val : byte -> Z) (N : Z) (name : cstring) (n : Z) : Z :=
  fold_left (djb2_step val N) name 5381 mod n.

(** ** [createHashTable] *)

(** The two allocations either both succeed or the program exits ([None]).
    A negative [size] converts to a [size_t] for which [calloc] cannot
    succeed. *)
Definition createHashTable (malloc_ok calloc_ok : bool) (size : Z)
  : option HashTable :=
  if negb malloc_ok then None
  else if (size <? 0) || negb calloc_ok then None
  else Some {| size := size; table := replicate (Z.to_nat size) [] |}.

(** [ht->table[index]].  An index outside the array is undefined in C and
    reads as the empty chain here; in a table that is [wf] below, every index
    the operations compute lies inside the array. *)
Definition bucket (ht : HashTable) (index : Z) : list ContactNode :=
  default [] (table ht !! Z.to_nat index).

(** [ht->table[index] = chain] *)
Definition set_bucket (ht : HashTable) (index : Z) (chain : list ContactNode)
  : HashTable :=
  {| size := size ht; table := <[Z.to_nat index := chain]> (table ht) |}.

(** ** [insertContact] *)

Definition insertContact (malloc_ok : bool) (ht : HashTable)
    (name phone : cstring) : HashTable * list output :=
  let index := hashFunction name (size ht) in
  if negb malloc_ok then (ht, [OutAllocFailed])
  else
    let newNode :=
      {| ContactNode.name := strncpy_nul name (MAX_NAME_LEN - 1);
         ContactNode.phone := strncpy_nul phone (MAX_PHONE_LEN - 1) |} in
    (set_bucket ht index (newNode :: bucket ht index), [OutAdded name phone]).

(** ** [searchContact] *)

Fixpoint search_loop (temp : list ContactNode) (name : cstring)
  : option ContactNode :=
  match temp with
  | [] => None
  | node :: next =>
      if strcmp (ContactNode.name node) name =? 0 then Some node
      else search_loop next name
  end.

Definition searchContact (ht : HashTable) (name : cstring)
  : option ContactNode :=
  let index := hashFunction name (size ht) in
  search_loop (bucket ht index) name.

(** ** [deleteContact] *)

(** The walk over the chain from [current] on.  [Some chain'] is the chain
    with the first match unlinked: at the head of the walk that is
    [current->next] itself (the bucket pointer, or the predecessor's [next],
    is made to designate it); [None] when the walk ends without a match. *)
Fixpoint delete_loop (current : list ContactNode) (name : cstring)
  : option (list ContactNode) :=
  match current with
  | [] => None
  | node :: next =>
      if strcmp (ContactNode.name node) name =? 0 then Some next
      else option_map (cons node) (delete_loop next name)
  end.

Definition deleteContact (ht : HashTable) (name : cstring)
  : HashTable * list output :=
  let index := hashFunction name (size ht) in
  match delete_loop (bucket ht index) name with
  | Some chain' => (set_bucket ht index chain', [OutDeleted name])
  | None => (ht, [OutNotFound name])
  end.

(** ** [displayContacts] *)

Definition print_chain (temp : list ContactNode) : list output :=
  map (fun node => OutEntry (ContactNode.name node) (ContactNode.phone node))
      temp.

(** The body of the [for] loop, for the [remaining] indices from [i] on;
    [empty] is the flag of the same name. *)
Fixpoint display_loop (ht : HashTable) (remaining : nat) (i : Z)
    (empty : bool) : bool * list output :=
  match remaining with
  | O => (empty, [])
  | S remaining' =>
      let temp := bucket ht i in
      match temp with
      | [] => display_loop ht remaining' (i + 1) empty
      | _ :: _ =>
          let '(empty', out) := display_loop ht remaining' (i + 1) false in
          (empty', OutBucket i :: print_chain temp ++ out)
      end
  end.

Definition displayContacts (ht : HashTable) : HashTable * list output :=
  let '(empty, out) := display_loop ht (Z.to_nat (size ht)) 0 true in
  (ht, OutHeader :: out ++ (if empty then [OutEmpty] else []) ++ [OutFooter]).

(** ** Observations used by the statements *)

(** The entries a display listed, each with the index of the last
    ["Bucket[%d]:"] line printed before it. *)
Fixpoint visited (cur : Z) (out : list output) : list (Z * ContactNode) :=
  match out with
  | [] => []
  | OutBucket i :: rest => visited i rest
  | OutEntry n p :: rest =>
      (cur, {| ContactNode.name := n; ContactNode.phone := p |})
        :: visited cur rest
  | _ :: rest => visited cur rest
  end.

(** All entries of the table with their bucket index: buckets in index
    order, each chain from head to tail. *)
Definition entries (ht : HashTable) : list (Z * ContactNode) :=
  concat (imap (fun i chain => map (pair (Z.of_nat i)) chain) (table ht)).

Definition entry_count (ht : HashTable) : nat := length (concat (table ht)).

(** Number of entries of a chain whose name is exactly [name]. *)
Definition matches (name : cstring) (chain : list ContactNode) : nat :=
  length (filter (fun node => ContactNode.name node = name) chain).

(** A table as [createHashTable] makes it for a positive [int] size: the
    array has [size] buckets. *)
Definition wf (ht : HashTable) : Prop :=
  0 < size ht <= INT_MAX /\ Z.of_nat (length (table ht)) = size ht.

(** Every stored name fits [char name[MAX_NAME_LEN]] with its terminator. *)
Definition names_fit (ht : HashTable) : Prop :=
  Forall (Forall (fun node =>
    (length (ContactNode.name node) < MAX_NAME_LEN)%nat)) (table ht).

(** Every entry reachable from bucket [i] hashes to [i]. *)
Definition bucket_inv (ht : HashTable) : Prop :=
  forall (i : nat) (chain : list ContactNode),
    table ht !! i = Some chain ->
    Forall (fun node =>
      hashFunction (ContactNode.name node) (size ht) = Z.of_nat i) chain.

(** Sequences of operations on a table. *)
Inductive Op :=
| OpInsert (malloc_ok : bool) (name phone : cstring)
| OpDelete (name : cstring).

Definition step (ht : HashTable) (op : Op) : HashTable :=
  match op with
  | OpInsert malloc_ok name phone => fst (insertContact malloc_ok ht name phone)
  | OpDelete name => fst (deleteContact ht name)
  end.

Definition run (ht : HashTable) (ops : list Op) : HashTable :=
  fold_left step ops ht.

(** The insert of a name and phone pair, with memory available. *)
Definition insert_op (p : cstring * cstring) : Op :=
  OpInsert true (fst p) (snd p).

(** The inserted name fits the name buffer. *)
Definition op_fits (op : Op) : Prop :=
  match op with
  | OpInsert _ name _ => (length name < MAX_NAME_LEN)%nat
  | OpDelete _ => True
  end.

(** The node [insertContact] fills in for [name] and [phone]. *)
Definition stored (name phone : cstring) : ContactNode :=
  {| ContactNode.name := strncpy_nul name (MAX_NAME_LEN - 1);
     ContactNode.phone := strncpy_nul phone (MAX_PHONE_LEN - 1) |}.

(** [j] successive calls of [deleteContact] with the same name. *)
Definition delete_n (ht : HashTable) (name : cstring) (j : nat) : HashTable :=
  Nat.iter j (fun h => fst (deleteContact h name)) ht.

(** Inputs of the concrete runs: a name of 50 bytes, one more than the name
    buffer holds, a phone of 15 bytes, and a table of [TABLE_SIZE] empty
    buckets as [main] creates it. *)
Definition name50 : cstring := replicate 50 "a"%byte.
Definition phone15 : cstring := replicate 15 "7"%byte.
Definition alice : cstring := [x41; x6c; x69; x63; x65].
Definition bob : cstring := [x42; x6f; x62].
Definition phone123 : cstring := [x31; x32; x33].
Definition phone456 : cstring := [x34; x35; x36].
Definition phonebook0 : HashTable :=
  {| size := TABLE_SIZE; table := replicate (Z.to_nat TABLE_SIZE) [] |}.

(** ** [freeHashTable] *)

(** One event per [free] call and one for the closing [printf]. *)
Inductive teardown_event :=
| FreeNode (node : ContactNode)            (* free(temp) *)
| FreeTable                                (* free(ht->table) *)
| FreeHashTable                            (* free(ht) *)
| OutFreed.                                (* "Phonebook memory freed." *)

(** The [for] loop over the buckets, for the [remaining] indices from [i]
    on; the inner [while] frees a chain from its head to its tail. *)
Fixpoint free_loop (ht : HashTable) (remaining : nat) (i : Z)
  : list teardown_event :=
  match remaining with
  | O => []
  | S remaining' => map FreeNode (bucket ht i) ++ free_loop ht remaining' (i + 1)
  end.

(** [None] is the [NULL] table, for which the function returns at once. *)
Definition freeHashTable (ht : option HashTable) : list teardown_event :=
  match ht with
  | None => []
  | Some ht =>
      free_loop ht (Z.to_nat (size ht)) 0 ++ [FreeTable; FreeHashTable; OutFreed]
  end.

(** The nodes a teardown freed, in the order of the [free] calls. *)
Fixpoint freed_nodes (evs : list teardown_event) : list ContactNode :=
  match evs with
  | [] => []
  | FreeNode node :: rest => node :: freed_nodes rest
  | _ :: rest => freed_nodes rest
  end.

(** ** Standard input *)

(** [stdin] is the list of the bytes still to be read; at the end of the
    list every read reports end of file. *)
Definition newline : byte := x0a.

(** [clearInputBuffer]: [while ((c = getchar()) != '\n' && c != EOF);] *)
Fixpoint clearInputBuffer (stdin : list byte) : list byte :=
  match stdin with
  | [] => []
  | c :: rest => if Byte.eqb c newline then rest else clearInputBuffer rest
  end.

(** The bytes [fgets] takes when the buffer has [room] bytes besides the
    terminator, and the rest of the stream: it stops after a newline, which
    it takes, at the end of the stream, or when there is no room left. *)
Fixpoint fgets_read (room : nat) (stdin : list byte) : list byte * list byte :=
  match room with
  | O => ([], stdin)
  | S room' =>
      match stdin with
      | [] => ([], [])
      | c :: rest =>
          if Byte.eqb c newline then ([c], rest)
          else let '(read, rest') := fgets_read room' rest in (c :: read, rest')
      end
  end.

(** The C string in a buffer that holds [bytes] followed by a terminator:
    the bytes in front of the first NUL. *)
Fixpoint c_str (bytes : list byte) : cstring :=
  match bytes with
  | [] => []
  | c :: rest => if Byte.eqb c x00 then [] else c :: c_str rest
  end.

(** [strcspn(s, reject)]: the length of the initial part of [s] without any
    byte of [reject]. *)
Fixpoint strcspn (s reject : cstring) : nat :=
  match s with
  | [] => O
  | c :: rest => if existsb (Byte.eqb c) reject then O else S (strcspn rest reject)
  end.

(** [fgets(buf, n, stdin); buf[strcspn(buf, "\n")] = 0;] on a buffer that
    holds the string [buf]: the string it holds afterwards and the rest of the
    stream.  If [fgets] reads nothing, at the end of the stream, it leaves
    the buffer as it was. *)
Definition fgets_strip (n : nat) (buf : cstring) (stdin : list byte)
  : cstring * list byte :=
  let '(read, rest) := fgets_read (n - 1) stdin in
  let buf' := match read with [] => buf | _ :: _ => c_str read end in
  (take (strcspn buf' [newline]) buf', rest).

(** ** [main] *)

(** One event per [printf] of [main] (the six lines of the menu are one
    event); what the table operations print is carried along. *)
Inductive main_output :=
| OutMenu                                  (* the menu and "Enter your choice: " *)
| OutInvalidInput                          (* "Invalid input. Please enter a number." *)
| OutPromptName                            (* "Enter Name: " *)
| OutPromptPhone                           (* "Enter Phone: " *)
| OutPromptSearch                          (* "Enter Name to Search: " *)
| OutPromptDelete                          (* "Enter Name to Delete: " *)
| OutFound (name phone : cstring)          (* "FOUND: Name: %s, Phone: %s" *)
| OutSearchMiss (name : cstring)           (* "ERROR: Contact '%s' not found." *)
| OutExiting                               (* "Exiting..." *)
| OutInvalidChoice                         (* "Invalid choice. Please try again." *)
| OutCreateFailed                          (* perror of [createHashTable] *)
| OutCore (o : output)                     (* printed by a table operation *)
| OutTeardown (e : teardown_event).        (* done by [freeHashTable] *)

Definition EXIT_FAILURE : Z := 1.

(** The variables of [main], the stream it reads and the number of nodes it
    has asked [malloc] for. *)
Record MainState := {
  m_stdin : list byte;
  m_phonebook : HashTable;
  m_name : cstring;
  m_phone : cstring;
  m_mallocs : nat
}.

(** The [switch (choice)] of one turn; [in2] is the stream after
    [clearInputBuffer], [malloc_ok k] tells whether the [k]-th node allocation
    succeeds.  The result is the next state, or the value [main] returns. *)
Definition main_switch (malloc_ok : nat -> bool) (choice : Z)
    (in2 : list byte) (st : MainState)
  : list main_output * (MainState + Z) :=
  if choice =? 1 then
    let '(name, in3) := fgets_strip MAX_NAME_LEN (m_name st) in2 in
    let '(phone, in4) := fgets_strip MAX_PHONE_LEN (m_phone st) in3 in
    let '(ht', out) :=
      insertContact (malloc_ok (m_mallocs st)) (m_phonebook st) name phone in
    ([OutMenu; OutPromptName; OutPromptPhone] ++ map OutCore out,
     inl {| m_stdin := in4; m_phonebook := ht';
            m_name := name; m_phone := phone;
            m_mallocs := S (m_mallocs st) |})
  else if choice =? 2 then
    let '(name, in3) := fgets_strip MAX_NAME_LEN (m_name st) in2 in
    let answer :=
      match searchContact (m_phonebook st) name with
      | Some found =>
          OutFound (ContactNode.name found) (ContactNode.phone found)
      | None => OutSearchMiss name
      end in
    ([OutMenu; OutPromptSearch; answer],
     inl {| m_stdin := in3; m_phonebook := m_phonebook st;
            m_name := name; m_phone := m_phone st;
            m_mallocs := m_mallocs st |})
  else if choice =? 3 then
    let '(name, in3) := fgets_strip MAX_NAME_LEN (m_name st) in2 in
    let '(ht', out) := deleteContact (m_phonebook st) name in
    ([OutMenu; OutPromptDelete] ++ map OutCore out,
     inl {| m_stdin := in3; m_phonebook := ht';
            m_name := name; m_phone := m_phone st;
            m_mallocs := m_mallocs st |})
  else if choice =? 4 then
    let '(ht', out) := displayContacts (m_phonebook st) in
    (OutMenu :: map OutCore out,
     inl {| m_stdin := in2; m_phonebook := ht';
            m_name := m_name st; m_phone := m_phone st;
            m_mallocs := m_mallocs st |})
  else if choice =? 5 then
    ([OutMenu; OutExiting]
       ++ map OutTeardown (freeHashTable (Some (m_phonebook st))),
     inr 0)
  else
    ([OutMenu; OutInvalidChoice],
     inl {| m_stdin := in2; m_phonebook := m_phonebook st;
            m_name := m_name st; m_phone := m_phone st;
            m_mallocs := m_mallocs st |}).

(** One turn of the [while (1)] loop.  [scanf_d] is [scanf("%d", ...)] on
    the stream: the number converted, if one was, and the rest of the
    stream. *)
Definition main_iteration (scanf_d : list byte -> option Z * list byte)
    (malloc_ok : nat -> bool) (st : MainState)
  : list main_output * (MainState + Z) :=
  let '(conv, in1) := scanf_d (m_stdin st) in
  match conv with
  | None =>
      ([OutMenu; OutInvalidInput],
       inl {| m_stdin := clearInputBuffer in1;
              m_phonebook := m_phonebook st;
              m_name := m_name st; m_phone := m_phone st;
              m_mallocs := m_mallocs st |})
  | Some choice => main_switch malloc_ok choice (clearInputBuffer in1) st
  end.

(** At most [fuel] turns of the loop: what was printed, and either the state
    the loop is in or the value returned. *)
Fixpoint main_loop (scanf_d : list byte -> option Z * list byte)
    (malloc_ok : nat -> bool) (fuel : nat) (st : MainState)
  : list main_output * (MainState + Z) :=
  match fuel with
  | O => ([], inl st)
  | S fuel' =>
      let '(out, next) := main_iteration scanf_d malloc_ok st in
      match next with
      | inl st' =>
          let '(out', last) := main_loop scanf_d malloc_ok fuel' st' in
          (out ++ out', last)
      | inr status => (out, inr status)
      end
  end.

(** [main]: [create_ok] are the outcomes of the two allocations of
    [createHashTable]; [name0] and [phone0] are the strings the two buffers
    hold before anything is read into them. *)
Definition main (scanf_d : list byte -> option Z * list byte)
    (malloc_ok : nat -> bool) (create_ok : bool * bool)
    (name0 phone0 : cstring) (fuel : nat) (stdin : list byte)
  : list main_output * (MainState + Z) :=
  match createHashTable (fst create_ok) (snd create_ok) TABLE_SIZE with
  | None => ([OutCreateFailed], inr EXIT_FAILURE)
  | Some phonebook =>
      main_loop scanf_d malloc_ok fuel
        {| m_stdin := stdin; m_phonebook := phonebook;
           m_name := name0; m_phone := phone0; m_mallocs := O |}
  end.

(** What [main] relies on between two turns: the table is as created, every
    entry is in the bucket of its name, and the stored strings and the two
    buffers are within their sizes. *)
Definition fields_fit (ht : HashTable) : Prop :=
  Forall (Forall (fun node =>
    (length (ContactNode.name node) < MAX_NAME_LEN)%nat
    /\ (length (ContactNode.phone node) < MAX_PHONE_LEN)%nat)) (table ht).

Definition main_inv (st : MainState) : Prop :=
  wf (m_phonebook st)
  /\ size (m_phonebook st) = TABLE_SIZE
  /\ bucket_inv (m_phonebook st)
  /\ fields_fit (m_phonebook st)
  /\ (length (m_name st) < MAX_NAME_LEN)%nat
  /\ (length (m_phone st) < MAX_PHONE_LEN)%nat.

(** Allocations and releases of nodes in what [main] printed and did. *)
Definition main_added (o : main_output) : bool :=
  match o with OutCore (OutAdded _ _) => true | _ => false end.
Definition main_deleted (o : main_output) : bool :=
  match o with OutCore (OutDeleted _) => true | _ => false end.
Definition main_freed (o : main_output) : bool :=
  match o with OutTeardown (FreeNode _) => true | _ => false end.

(** A table operation with what it prints. *)
Definition step_out (ht : HashTable) (op : Op) : HashTable * list output :=
  match op with
  | OpInsert malloc_ok name phone => insertContact malloc_ok ht name phone
  | OpDelete name => deleteContact ht name
  end.

Fixpoint run_out (ht : HashTable) (ops : list Op) : HashTable * list output :=
  match ops with
  | [] => (ht, [])
  | op :: ops' =>
      let '(ht', out) := step_out ht op in
      let '(ht'', out') := run_out ht' ops' in
      (ht'', out ++ out')
  end.

Definition is_added (o : output) : bool :=
  match o with OutAdded _ _ => true | _ => false end.
Definition is_deleted (o : output) : bool :=
  match o with OutDeleted _ => true | _ => false end.

(** The indices of the ["Bucket[%d]:"] lines of a display. *)
Fixpoint bucket_lines (out : list output) : list Z :=
  match out with
  | [] => []
  | OutBucket i :: rest => i :: bucket_lines rest
  | _ :: rest => bucket_lines rest
  end.

(** The indices of the chains that are not empty, from index [k] on. *)
Fixpoint nonempty_from (k : nat) (t : list (list ContactNode)) : list Z :=
  match t with
  | [] => []
  | [] :: t' => nonempty_from (S k) t'
  | (_ :: _) :: t' => Z.of_nat k :: nonempty_from (S k) t'
  end.

(** A reader of unsigned decimal numbers for the concrete runs: it skips
    white space and converts the digits that follow; without a digit nothing
    is converted and the offending byte stays in the stream. *)
Definition is_space (c : byte) : bool :=
  let v := byte_unsigned c in ((9 <=? v) && (v <=? 13)) || (v =? 32).

Definition digit (c : byte) : option Z :=
  let v := byte_unsigned c in
  if (48 <=? v) && (v <=? 57) then Some (v - 48) else None.

Fixpoint skip_space (s : list byte) : list byte :=
  match s with
  | [] => []
  | c :: rest => if is_space c then skip_space rest else s
  end.

Fixpoint read_digits (acc : Z) (s : list byte) : Z * list byte :=
  match s with
  | [] => (acc, [])
  | c :: rest =>
      match digit c with
      | Some d => read_digits (acc * 10 + d) rest
      | None => (acc, s)
      end
  end.

Definition scanf_decimal (stdin : list byte) : option Z * list byte :=
  match skip_space stdin with
  | [] => (None, [])
  | c :: rest =>
      match digit c with
      | Some d => let '(v, rest') := read_digits d rest in (Some v, rest')
      | None => (None, c :: rest)
      end
  end.

(** Three names that share bucket 46 of 100. *)
Definition kim : cstring := [x4b; x69; x6d].
Definition sue : cstring := [x53; x75; x65].
Definition carol : cstring := [x43; x61; x72; x6f; x6c].

(** Inputs of the concrete runs of [main]: what is typed at the menu, the
    state [main] starts its loop in, with empty buffers, and an allocator
    that never fails. *)
Definition input_add_search : list byte :=
  [x31; x0a] ++ alice ++ [x0a] ++ phone123 ++ [x0a]
    ++ [x32; x0a] ++ alice ++ [x0a].
Definition input_add_exit : list byte :=
  [x31; x0a] ++ alice ++ [x0a] ++ phone123 ++ [x0a] ++ [x35; x0a].
Definition name49 : cstring := replicate 49 "b"%byte.
Definition input_long_name : list byte :=
  [x31; x0a] ++ name49 ++ [x0a] ++ phone123 ++ [x0a].
Definition state0 (stdin : list byte) : MainState :=
  {| m_stdin := stdin; m_phonebook := phonebook0;
     m_name := []; m_phone := []; m_mallocs := O |}.
Definition never_fails (k : nat) : bool := true.

(** * Properties *)

(** ** Strings *)

Lemma strcmp_refl (s : cstring) : strcmp s s = 0.
Proof.
  induction s as [|c s IH]; simpl; [reflexivity|].
  assert (Byte.eqb c c = true) as -> by (apply Byte.byte_dec_lb; reflexivity).
  exact IH.
Qed.

Lemma strcmp_zero_eq (s1 s2 : cstring) : strcmp s1 s2 = 0 -> s1 = s2.
Proof.
  revert s2. induction s1 as [|c1 r1 IH]; intros [|c2 r2]; simpl;
    try discriminate; [reflexivity|].
  destruct (Byte.eqb c1 c2) eqn:E.
  - intros H. apply Byte.byte_dec_bl in E. rewrite (IH _ H), E. reflexivity.
  - destruct (byte_unsigned c1 <? byte_unsigned c2); discriminate.
Qed.

Lemma strcmp_eqb_true (s1 s2 : cstring) : (strcmp s1 s2 =? 0) = true <-> s1 = s2.
Proof.
  rewrite Z.eqb_eq. split; [apply strcmp_zero_eq|].
  intros ->. apply strcmp_refl.
Qed.

Lemma strcmp_eqb_false (s1 s2 : cstring) : (strcmp s1 s2 =? 0) = false <-> s1 <> s2.
Proof.
  rewrite <- strcmp_eqb_true. destruct (strcmp s1 s2 =? 0); split; congruence.
Qed.

Lemma strncpy_nul_fits (src : cstring) (n : nat) :
  (length src <= n)%nat -> strncpy_nul src n = src.
Proof. intros H. unfold strncpy_nul. apply take_ge. exact H. Qed.

Lemma strncpy_nul_length (src : cstring) (n : nat) :
  (length (strncpy_nul src n) <= n)%nat.
Proof. unfold strncpy_nul. rewrite length_take. lia. Qed.

Lemma byte_unsigned_range (b : byte) : 0 <= byte_unsigned b < 256.
Proof.
  unfold byte_unsigned. pose proof (Byte.to_N_bounded b). lia.
Qed.

(** ** The hash function *)

Lemma ULONG_BITS_cases : ULONG_BITS = 32 \/ ULONG_BITS = 64.
Proof. unfold ULONG_BITS. destruct (abi_long abi); auto. Qed.

Lemma ULONG_MAX_ge : 2 ^ 32 <= 2 ^ ULONG_BITS.
Proof. destruct ULONG_BITS_cases as [-> | ->]; lia. Qed.

Lemma to_ulong_int (z : Z) : 0 <= z <= INT_MAX -> to_ulong z = z.
Proof.
  intros H. unfold to_ulong. apply Z.mod_small.
  pose proof ULONG_MAX_ge. unfold INT_MAX in H. lia.
Qed.

Lemma hashFunction_mod (name : cstring) (n : Z) :
  0 < n <= INT_MAX -> hashFunction name n = hash_loop name 5381 mod n.
Proof.
  intros H. unfold hashFunction. rewrite to_ulong_int by lia.
  unfold to_uint. apply Z.mod_small.
  pose proof (Z.mod_pos_bound (hash_loop name 5381) n). unfold INT_MAX in H. lia.
Qed.

(** One turn of the loop is [hash * 33 + c] reduced once. *)
Lemma hash_step (h c : Z) :
  to_ulong (to_ulong (to_ulong (Z.shiftl h 5) + h) + to_ulong c)
  = (h * 33 + c) mod 2 ^ ULONG_BITS.
Proof.
  unfold to_ulong. rewrite Z.shiftl_mul_pow2 by lia.
  rewrite (Zplus_mod_idemp_l (h * 2 ^ 5) h).
  rewrite Zplus_mod_idemp_l, Zplus_mod_idemp_r.
  f_equal. lia.
Qed.

Lemma hash_loop_fold (name : cstring) (h : Z) :
  hash_loop name h = fold_left (djb2_step char_to_int ULONG_BITS) name h.
Proof.
  revert h. induction name as [|b name IH]; intros h; simpl; [reflexivity|].
  rewrite hash_step. apply IH.
Qed.

Lemma char_to_int_unsigned (b : byte) :
  abi_char_signed abi = false \/ byte_unsigned b < 128 ->
  char_to_int b = byte_unsigned b.
Proof.
  unfold char_to_int. intros [-> | H]; [reflexivity|].
  replace (128 <=? byte_unsigned b) with false by (symmetry; apply Z.leb_gt; lia).
  rewrite andb_false_r. reflexivity.
Qed.

Lemma djb2_fold_ext (val1 val2 : byte -> Z) (N : Z) (name : cstring) (h : Z) :
  Forall (fun b => val1 b = val2 b) name ->
  fold_left (djb2_step val1 N) name h = fold_left (djb2_step val2 N) name h.
Proof.
  intros H. revert h. induction H as [|b name Hb _ IH]; intros h; simpl;
    [reflexivity|].
  unfold djb2_step at 2 4. rewrite Hb. apply IH.
Qed.

Lemma hashFunction_range (s : cstring) (n : Z) :
  0 < n <= INT_MAX -> 0 <= hashFunction s n < n.
Proof.
  intros Hn. rewrite hashFunction_mod by exact Hn. apply Z.mod_pos_bound. lia.
Qed.

(** C7: for every string and every bucket count [n > 0] (an [int]),
    [hashFunction] is deterministic, equal arguments give equal results, and
    its result lies in [[0, n)]. *)
Theorem hashFunction_deterministic_in_range (s : cstring) (n : Z) :
  0 < n <= INT_MAX ->
  (forall (s' : cstring) (n' : Z),
      s' = s -> n' = n -> hashFunction s' n' = hashFunction s n)
  /\ 0 <= hashFunction s n < n.
Proof.
  intros Hn. split.
  - intros s' n' -> ->. reflexivity.
  - apply hashFunction_range. exact Hn.
Qed.

(** C8 (amended): for every byte string and bucket count [n > 0],
    [hashFunction] is the reference djb2 hash, modulo [2 ^ ULONG_BITS], over
    the bytes read as plain [char] converted to [int]; it is the reference
    djb2 hash over the raw unsigned bytes whenever plain [char] is unsigned
    or every byte of the name is below 128. *)
Theorem hashFunction_is_djb2 (name : cstring) (n : Z) :
  0 < n <= INT_MAX ->
  hashFunction name n = djb2_ref char_to_int ULONG_BITS name n
  /\ (abi_char_signed abi = false
       \/ Forall (fun b => byte_unsigned b < 128) name ->
      hashFunction name n = djb2_ref byte_unsigned ULONG_BITS name n).
Proof.
  intros Hn. rewrite hashFunction_mod by exact Hn. unfold djb2_ref.
  rewrite hash_loop_fold. split; [reflexivity|].
  intros H. f_equal. apply djb2_fold_ext.
  destruct H as [H | H].
  - apply Forall_forall. intros b _. apply char_to_int_unsigned. auto.
  - eapply Forall_impl; [exact H|]. intros b Hb.
    apply char_to_int_unsigned. auto.
Qed.

(** ** The bucket array *)

Lemma wf_index (ht : HashTable) (name : cstring) :
  wf ht ->
  (Z.to_nat (hashFunction name (size ht)) < length (table ht))%nat.
Proof.
  intros [Hs Hl].
  pose proof (hashFunction_range name (size ht) Hs). lia.
Qed.

Lemma bucket_set_bucket (ht : HashTable) (i : Z) (chain : list ContactNode) :
  (Z.to_nat i < length (table ht))%nat ->
  bucket (set_bucket ht i chain) i = chain.
Proof.
  intros H. unfold bucket, set_bucket; simpl.
  rewrite list_lookup_insert_eq by exact H. reflexivity.
Qed.

Lemma bucket_set_bucket_ne (ht : HashTable) (i j : Z)
    (chain : list ContactNode) :
  Z.to_nat i <> Z.to_nat j ->
  bucket (set_bucket ht i chain) j = bucket ht j.
Proof.
  intros H. unfold bucket, set_bucket; simpl.
  rewrite list_lookup_insert_ne by exact H. reflexivity.
Qed.

Lemma set_bucket_same (ht : HashTable) (i : Z) :
  set_bucket ht i (bucket ht i) = ht.
Proof.
  destruct ht as [sz t]. unfold set_bucket, bucket; simpl. f_equal.
  destruct (t !! Z.to_nat i) as [c|] eqn:E; simpl.
  - apply list_insert_id. exact E.
  - apply list_insert_ge. apply lookup_ge_None. exact E.
Qed.

Lemma set_bucket_twice (ht : HashTable) (i : Z) (c1 c2 : list ContactNode) :
  set_bucket (set_bucket ht i c1) i c2 = set_bucket ht i c2.
Proof.
  unfold set_bucket; simpl. f_equal. apply list_insert_insert_eq.
Qed.

Lemma wf_set_bucket (ht : HashTable) (i : Z) (chain : list ContactNode) :
  wf ht -> wf (set_bucket ht i chain).
Proof.
  intros [Hs Hl]. split; simpl; [exact Hs|]. rewrite length_insert. exact Hl.
Qed.

Lemma createHashTable_Some (n : Z) (ht0 : HashTable) :
  createHashTable true true n = Some ht0 ->
  ht0 = {| size := n; table := replicate (Z.to_nat n) [] |}.
Proof.
  unfold createHashTable. cbn [negb]. destruct (n <? 0); cbn [orb];
    [discriminate|].
  intros [= <-]. reflexivity.
Qed.

Lemma bucket_create (n : Z) (ht0 : HashTable) (i : Z) :
  createHashTable true true n = Some ht0 -> bucket ht0 i = [].
Proof.
  intros H. apply createHashTable_Some in H. subst ht0. unfold bucket; simpl.
  destruct (replicate (Z.to_nat n) [] !! Z.to_nat i) as [c|] eqn:E;
    [|reflexivity].
  apply lookup_replicate_1 in E. destruct E as [-> _]. reflexivity.
Qed.

Lemma wf_create (n : Z) (ht0 : HashTable) :
  0 < n <= INT_MAX -> createHashTable true true n = Some ht0 -> wf ht0.
Proof.
  intros Hn H. apply createHashTable_Some in H. subst ht0.
  split; simpl; [exact Hn|].
  rewrite length_replicate. lia.
Qed.

(** ** Insertion *)

Lemma insertContact_ok (ht : HashTable) (name phone : cstring) :
  insertContact true ht name phone
  = (set_bucket ht (hashFunction name (size ht))
       (stored name phone :: bucket ht (hashFunction name (size ht))),
     [OutAdded name phone]).
Proof. reflexivity. Qed.

Lemma insertContact_size (ok : bool) (ht : HashTable) (name phone : cstring) :
  size (fst (insertContact ok ht name phone)) = size ht.
Proof. destruct ok; reflexivity. Qed.

Lemma insertContact_wf (ok : bool) (ht : HashTable) (name phone : cstring) :
  wf ht -> wf (fst (insertContact ok ht name phone)).
Proof.
  intros H. destruct ok; [|exact H]. rewrite insertContact_ok; simpl.
  apply wf_set_bucket. exact H.
Qed.

Lemma insertContact_bucket (ht : HashTable) (name phone : cstring) :
  wf ht ->
  bucket (fst (insertContact true ht name phone)) (hashFunction name (size ht))
  = stored name phone :: bucket ht (hashFunction name (size ht)).
Proof.
  intros H. rewrite insertContact_ok; simpl.
  apply bucket_set_bucket. apply wf_index. exact H.
Qed.

Lemma stored_fits (name phone : cstring) :
  (length name < MAX_NAME_LEN)%nat ->
  (length phone < MAX_PHONE_LEN)%nat ->
  stored name phone = {| ContactNode.name := name; ContactNode.phone := phone |}.
Proof.
  intros Hn Hp. unfold stored.
  rewrite !strncpy_nul_fits; [reflexivity| |];
    unfold MAX_NAME_LEN, MAX_PHONE_LEN in *; lia.
Qed.

(** ** Search *)

Lemma search_loop_head (node : ContactNode) (next : list ContactNode)
    (name : cstring) :
  ContactNode.name node = name -> search_loop (node :: next) name = Some node.
Proof.
  intros H. cbn [search_loop].
  rewrite (proj2 (strcmp_eqb_true _ _) H). reflexivity.
Qed.

Lemma search_loop_skip (node : ContactNode) (next : list ContactNode)
    (name : cstring) :
  ContactNode.name node <> name ->
  search_loop (node :: next) name = search_loop next name.
Proof.
  intros H. cbn [search_loop].
  rewrite (proj2 (strcmp_eqb_false _ _) H). reflexivity.
Qed.

Lemma search_loop_none (chain : list ContactNode) (name : cstring) :
  Forall (fun node => ContactNode.name node <> name) chain ->
  search_loop chain name = None.
Proof.
  induction 1 as [|node next Hn _ IH]; [reflexivity|].
  rewrite search_loop_skip by exact Hn. exact IH.
Qed.

(** A name longer than the buffer equals no stored name. *)
Lemma names_fit_bucket (ht : HashTable) (i : Z) (name : cstring) :
  names_fit ht ->
  (MAX_NAME_LEN <= length name)%nat ->
  Forall (fun node => ContactNode.name node <> name) (bucket ht i).
Proof.
  intros Hfit Hlong. unfold bucket.
  destruct (table ht !! Z.to_nat i) as [chain|] eqn:E; simpl; [|constructor].
  unfold names_fit in Hfit.
  rewrite Forall_lookup in Hfit. specialize (Hfit _ _ E).
  eapply Forall_impl; [exact Hfit|]. intros node Hlt Heq.
  cbv beta in Hlt. rewrite Heq in Hlt. lia.
Qed.

Lemma names_fit_chain (ht : HashTable) (i : Z) :
  names_fit ht ->
  Forall (fun node => (length (ContactNode.name node) < MAX_NAME_LEN)%nat)
         (bucket ht i).
Proof.
  intros Hfit. unfold bucket.
  destruct (table ht !! Z.to_nat i) as [chain|] eqn:E; simpl; [|constructor].
  exact (Forall_lookup_1 _ _ _ _ Hfit E).
Qed.

(** ** Deletion *)

Lemma delete_loop_none (chain : list ContactNode) (name : cstring) :
  Forall (fun node => ContactNode.name node <> name) chain ->
  delete_loop chain name = None.
Proof.
  induction 1 as [|node next Hn _ IH]; [reflexivity|].
  cbn [delete_loop]. rewrite (proj2 (strcmp_eqb_false _ _) Hn), IH.
  reflexivity.
Qed.

Lemma delete_loop_head (node : ContactNode) (next : list ContactNode)
    (name : cstring) :
  ContactNode.name node = name -> delete_loop (node :: next) name = Some next.
Proof.
  intros H. cbn [delete_loop].
  rewrite (proj2 (strcmp_eqb_true _ _) H). reflexivity.
Qed.

(** The first match splits the chain; the walk unlinks it. *)
Lemma delete_loop_first (chain : list ContactNode) (name : cstring) :
  (1 <= matches name chain)%nat ->
  exists (pre : list ContactNode) (node : ContactNode)
         (post : list ContactNode),
    chain = pre ++ node :: post
    /\ Forall (fun n => ContactNode.name n <> name) pre
    /\ ContactNode.name node = name
    /\ delete_loop chain name = Some (pre ++ post).
Proof.
  induction chain as [|n chain IH]; unfold matches.
  - rewrite filter_nil. simpl. lia.
  - destruct (decide (ContactNode.name n = name)) as [E | E].
    + intros _. exists [], n, chain. repeat split; [constructor | exact E |].
      apply delete_loop_head. exact E.
    + rewrite filter_cons_False by exact E. intros H.
      destruct (IH H) as (pre & node & post & -> & Hpre & Hnode & Hdel).
      exists (n :: pre), node, post. repeat split.
      * constructor; assumption.
      * exact Hnode.
      * cbn [delete_loop]. rewrite (proj2 (strcmp_eqb_false _ _) E), Hdel.
        reflexivity.
Qed.

Lemma matches_none (name : cstring) (chain : list ContactNode) :
  Forall (fun n => ContactNode.name n <> name) chain ->
  matches name chain = 0%nat.
Proof.
  unfold matches. induction 1 as [|n chain Hn _ IH]; [reflexivity|].
  rewrite filter_cons_False by exact Hn. exact IH.
Qed.

Lemma matches_zero (name : cstring) (chain : list ContactNode) :
  matches name chain = 0%nat ->
  Forall (fun n => ContactNode.name n <> name) chain.
Proof.
  unfold matches. induction chain as [|n chain IH]; [constructor|].
  destruct (decide (ContactNode.name n = name)) as [E | E].
  - rewrite filter_cons_True by exact E. discriminate.
  - rewrite filter_cons_False by exact E. intros H.
    constructor; [exact E | apply IH; exact H].
Qed.

Lemma matches_app (name : cstring) (c1 c2 : list ContactNode) :
  matches name (c1 ++ c2) = (matches name c1 + matches name c2)%nat.
Proof. unfold matches. rewrite filter_app. apply List.length_app. Qed.

Lemma matches_cons_eq (name : cstring) (n : ContactNode)
    (chain : list ContactNode) :
  ContactNode.name n = name ->
  matches name (n :: chain) = S (matches name chain).
Proof.
  intros E. unfold matches. rewrite filter_cons_True by exact E. reflexivity.
Qed.

Lemma concat_insert_length (t : list (list ContactNode)) (i : nat)
    (old new : list ContactNode) :
  t !! i = Some old ->
  (length (concat (<[i:=new]> t)) + length old
   = length (concat t) + length new)%nat.
Proof.
  revert i. induction t as [|c t IH]; intros [|i]; simpl; try discriminate.
  - intros [= ->]. rewrite !List.length_app. lia.
  - intros H. specialize (IH i H). rewrite !List.length_app. lia.
Qed.

Lemma wf_bucket_lookup (ht : HashTable) (name : cstring) :
  wf ht ->
  table ht !! Z.to_nat (hashFunction name (size ht))
  = Some (bucket ht (hashFunction name (size ht))).
Proof.
  intros H. apply (wf_index ht name) in H.
  apply lookup_lt_is_Some_2 in H. destruct H as [c Hc].
  unfold bucket. rewrite Hc. reflexivity.
Qed.

Lemma deleteContact_size (ht : HashTable) (name : cstring) :
  size (fst (deleteContact ht name)) = size ht.
Proof.
  unfold deleteContact. destruct (delete_loop _ name); reflexivity.
Qed.

Lemma deleteContact_wf (ht : HashTable) (name : cstring) :
  wf ht -> wf (fst (deleteContact ht name)).
Proof.
  intros H. unfold deleteContact. destruct (delete_loop _ name); simpl;
    [apply wf_set_bucket|]; exact H.
Qed.

(** One successful delete: the chain loses its first match, the table one
    entry. *)
Lemma deleteContact_once (ht : HashTable) (name : cstring) (k : nat) :
  wf ht ->
  matches name (bucket ht (hashFunction name (size ht))) = S k ->
  exists (pre : list ContactNode) (node : ContactNode)
         (post : list ContactNode),
    bucket ht (hashFunction name (size ht)) = pre ++ node :: post
    /\ Forall (fun n => ContactNode.name n <> name) pre
    /\ ContactNode.name node = name
    /\ matches name post = k
    /\ deleteContact ht name
       = (set_bucket ht (hashFunction name (size ht)) (pre ++ post),
          [OutDeleted name])
    /\ matches name
         (bucket (fst (deleteContact ht name)) (hashFunction name (size ht)))
       = k
    /\ S (entry_count (fst (deleteContact ht name))) = entry_count ht.
Proof.
  intros Hwf Hk.
  destruct (delete_loop_first (bucket ht (hashFunction name (size ht))) name)
    as (pre & node & post & Hsplit & Hpre & Hnode & Hdel); [lia|].
  assert (Hpost : matches name post = k).
  { rewrite Hsplit, matches_app, matches_cons_eq in Hk by exact Hnode.
    rewrite (matches_none name pre Hpre) in Hk. lia. }
  assert (Hcall : deleteContact ht name
                  = (set_bucket ht (hashFunction name (size ht)) (pre ++ post),
                     [OutDeleted name])).
  { unfold deleteContact. rewrite Hdel. reflexivity. }
  exists pre, node, post. rewrite Hcall. cbn [fst].
  repeat split; try assumption.
  - rewrite bucket_set_bucket by (apply wf_index; exact Hwf).
    rewrite matches_app, (matches_none name pre Hpre). exact Hpost.
  - unfold entry_count, set_bucket; cbn [table].
    pose proof (concat_insert_length (table ht) _ _ (pre ++ post)
                  (wf_bucket_lookup ht name Hwf)) as H.
    rewrite Hsplit in H. rewrite !List.length_app in H. simpl in H. lia.
Qed.

Lemma delete_n_S (ht : HashTable) (name : cstring) (j : nat) :
  delete_n ht name (S j) = fst (deleteContact (delete_n ht name j) name).
Proof. reflexivity. Qed.

(** After [j <= k] deletes of a name with [k] matches in its chain. *)
Lemma delete_n_state (ht : HashTable) (name : cstring) (k j : nat) :
  wf ht ->
  matches name (bucket ht (hashFunction name (size ht))) = k ->
  (j <= k)%nat ->
  wf (delete_n ht name j)
  /\ size (delete_n ht name j) = size ht
  /\ (matches name (bucket (delete_n ht name j) (hashFunction name (size ht)))
      + j = k)%nat
  /\ (entry_count (delete_n ht name j) + j = entry_count ht)%nat.
Proof.
  intros Hwf Hk. induction j as [|j IH]; intros Hj.
  - change (delete_n ht name 0) with ht. split; [exact Hwf|].
    split; [reflexivity|]. split; lia.
  - destruct IH as (Hwfj & Hsj & Hmj & Hej); [lia|].
    rewrite delete_n_S.
    destruct (deleteContact_once (delete_n ht name j) name (k - S j) Hwfj)
      as (pre & node & post & _ & _ & _ & _ & _ & Hm & He).
    { rewrite Hsj. lia. }
    rewrite Hsj in Hm.
    split; [apply deleteContact_wf; exact Hwfj|].
    split; [rewrite deleteContact_size; exact Hsj|].
    split; lia.
Qed.

(** ** The bucket invariant *)

Lemma delete_loop_Forall (P : ContactNode -> Prop)
    (chain chain' : list ContactNode) (name : cstring) :
  delete_loop chain name = Some chain' -> Forall P chain -> Forall P chain'.
Proof.
  revert chain'. induction chain as [|n chain IH]; intros chain';
    cbn [delete_loop]; [discriminate|].
  destruct (strcmp (ContactNode.name n) name =? 0).
  - intros [= <-] H. apply Forall_cons in H. tauto.
  - destruct (delete_loop chain name) as [c|]; [|discriminate].
    intros [= <-] H. apply Forall_cons in H. destruct H as [Hn Hc].
    constructor; [exact Hn | apply IH; [reflexivity | exact Hc]].
Qed.

Lemma bucket_inv_set_bucket (ht : HashTable) (i : Z)
    (chain : list ContactNode) :
  bucket_inv ht ->
  Forall (fun node =>
    hashFunction (ContactNode.name node) (size ht) = Z.of_nat (Z.to_nat i))
    chain ->
  bucket_inv (set_bucket ht i chain).
Proof.
  intros Hinv Hc j c Hl. cbn [set_bucket table size] in *.
  apply list_lookup_insert_Some in Hl.
  destruct Hl as [(<- & <- & _) | (_ & Hl)]; [exact Hc | exact (Hinv j c Hl)].
Qed.

Lemma bucket_inv_bucket (ht : HashTable) (i : Z) :
  bucket_inv ht ->
  Forall (fun node =>
    hashFunction (ContactNode.name node) (size ht) = Z.of_nat (Z.to_nat i))
    (bucket ht i).
Proof.
  intros Hinv. unfold bucket.
  destruct (table ht !! Z.to_nat i) as [c|] eqn:E; simpl;
    [exact (Hinv _ _ E) | constructor].
Qed.

Lemma bucket_inv_create (n : Z) (ht0 : HashTable) :
  createHashTable true true n = Some ht0 -> bucket_inv ht0.
Proof.
  intros H. apply createHashTable_Some in H. subst ht0.
  intros i c Hl. cbn [table] in Hl.
  apply lookup_replicate_1 in Hl. destruct Hl as [-> _]. constructor.
Qed.

Lemma bucket_inv_insert (ok : bool) (ht : HashTable) (name phone : cstring) :
  wf ht ->
  bucket_inv ht ->
  (length name < MAX_NAME_LEN)%nat ->
  bucket_inv (fst (insertContact ok ht name phone)).
Proof.
  intros Hwf Hinv Hfit. destruct ok; [|exact Hinv].
  rewrite insertContact_ok. cbn [fst].
  apply bucket_inv_set_bucket; [exact Hinv|].
  constructor; [|apply bucket_inv_bucket; exact Hinv].
  unfold stored. cbn [ContactNode.name].
  rewrite strncpy_nul_fits by (unfold MAX_NAME_LEN in *; lia).
  destruct Hwf as [Hs _].
  pose proof (hashFunction_range name (size ht) Hs). lia.
Qed.

Lemma bucket_inv_delete (ht : HashTable) (name : cstring) :
  bucket_inv ht -> bucket_inv (fst (deleteContact ht name)).
Proof.
  intros Hinv. unfold deleteContact.
  destruct (delete_loop _ name) as [chain'|] eqn:E; cbn [fst]; [|exact Hinv].
  apply bucket_inv_set_bucket; [exact Hinv|].
  eapply delete_loop_Forall; [exact E|]. apply bucket_inv_bucket. exact Hinv.
Qed.

Lemma run_cons (ht : HashTable) (op : Op) (ops : list Op) :
  run ht (op :: ops) = run (step ht op) ops.
Proof. reflexivity. Qed.

Lemma step_wf (ht : HashTable) (op : Op) : wf ht -> wf (step ht op).
Proof.
  intros H. destruct op; cbn [step];
    [apply insertContact_wf | apply deleteContact_wf]; exact H.
Qed.

Lemma run_inv (ops : list Op) (ht : HashTable) :
  wf ht ->
  bucket_inv ht ->
  Forall op_fits ops ->
  wf (run ht ops) /\ bucket_inv (run ht ops).
Proof.
  revert ht. induction ops as [|op ops IH]; intros ht Hwf Hinv Hops.
  - split; assumption.
  - apply Forall_cons in Hops. destruct Hops as [Hop Hops].
    rewrite run_cons. apply IH; [apply step_wf; exact Hwf | | exact Hops].
    destruct op as [ok name phone | name]; cbn [step].
    + apply bucket_inv_insert; assumption.
    + apply bucket_inv_delete; exact Hinv.
Qed.

(** Stored names always fit their buffer: whatever is inserted, the name is
    cut to [MAX_NAME_LEN - 1] bytes. *)
Lemma names_fit_step (ht : HashTable) (op : Op) :
  names_fit ht -> names_fit (step ht op).
Proof.
  intros Hfit. destruct op as [ok name phone | name]; cbn [step].
  - destruct ok; [|exact Hfit]. rewrite insertContact_ok. cbn [fst].
    unfold names_fit, set_bucket; cbn [table].
    apply Forall_insert; [exact Hfit|].
    constructor; [|apply names_fit_chain; exact Hfit].
    unfold stored. cbn [ContactNode.name].
    pose proof (strncpy_nul_length name (MAX_NAME_LEN - 1)).
    unfold MAX_NAME_LEN in *. lia.
  - unfold deleteContact.
    destruct (delete_loop _ name) as [chain'|] eqn:E; cbn [fst];
      [|exact Hfit].
    unfold names_fit, set_bucket; cbn [table].
    apply Forall_insert; [exact Hfit|].
    eapply delete_loop_Forall; [exact E|]. apply names_fit_chain. exact Hfit.
Qed.

Lemma names_fit_run (n : Z) (ht0 : HashTable) (ops : list Op) :
  createHashTable true true n = Some ht0 -> names_fit (run ht0 ops).
Proof.
  intros H. apply createHashTable_Some in H. subst ht0.
  assert (H0 : names_fit {| size := n; table := replicate (Z.to_nat n) [] |}).
  { unfold names_fit; cbn [table]. apply Forall_replicate. constructor. }
  revert H0. generalize {| size := n; table := replicate (Z.to_nat n) [] |}.
  induction ops as [|op ops IH]; intros ht Hfit; [exact Hfit|].
  rewrite run_cons. apply IH. apply names_fit_step. exact Hfit.
Qed.

(** Under the bucket invariant the entries named [name] anywhere in the
    table are those of the one chain a search or delete for [name] walks. *)
Lemma matches_concat_none (name : cstring) (l : list (list ContactNode)) :
  Forall (Forall (fun n => ContactNode.name n <> name)) l ->
  matches name (concat l) = 0%nat.
Proof.
  induction 1 as [|c l Hc _ IH]; [reflexivity|].
  cbn [concat]. rewrite matches_app, IH, (matches_none name c Hc). reflexivity.
Qed.

Lemma matches_store_wide (ht : HashTable) (name : cstring) :
  wf ht ->
  bucket_inv ht ->
  matches name (concat (table ht))
  = matches name (bucket ht (hashFunction name (size ht))).
Proof.
  intros Hwf Hinv.
  pose proof (wf_bucket_lookup ht name Hwf) as Hl.
  assert (Hother : forall (j : nat) (c : list ContactNode),
             table ht !! j = Some c ->
             j <> Z.to_nat (hashFunction name (size ht)) ->
             Forall (fun n => ContactNode.name n <> name) c).
  { intros j c Hj Hne. eapply Forall_impl; [exact (Hinv j c Hj)|].
    intros n Hn Heq. cbv beta in Hn. rewrite Heq in Hn. lia. }
  rewrite <- (take_drop_middle _ _ _ Hl) at 1.
  rewrite concat_app. cbn [concat]. rewrite !matches_app.
  rewrite !matches_concat_none; [lia | |].
  - apply Forall_lookup_2. intros j c Hj. rewrite lookup_drop in Hj.
    apply (Hother _ _ Hj). lia.
  - apply Forall_lookup_2. intros j c Hj.
    apply lookup_take_Some in Hj. destruct Hj as [Hj Hlt].
    apply (Hother _ _ Hj). lia.
Qed.

(** C3 (amended): for every table reached from a fresh one by inserts of
    names of at most 49 bytes and by deletes, every entry reachable from
    bucket [i] hashes to [i]; an insert of such a name and every delete
    preserve this. *)
Theorem bucket_invariant_reachable (n : Z) (ht0 : HashTable)
    (ops : list Op) :
  0 < n <= INT_MAX ->
  createHashTable true true n = Some ht0 ->
  Forall op_fits ops ->
  bucket_inv (run ht0 ops)
  /\ (forall (ht : HashTable) (ok : bool) (name phone : cstring),
        wf ht -> bucket_inv ht -> (length name < MAX_NAME_LEN)%nat ->
        bucket_inv (fst (insertContact ok ht name phone)))
  /\ (forall (ht : HashTable) (name : cstring),
        bucket_inv ht -> bucket_inv (fst (deleteContact ht name))).
Proof.
  intros Hn Hcreate Hops. split; [|split].
  - apply run_inv; [eapply wf_create; eassumption | | exact Hops].
    eapply bucket_inv_create. exact Hcreate.
  - intros ht ok name phone. apply bucket_inv_insert.
  - apply bucket_inv_delete.
Qed.

(** ** Display *)

Lemma visited_print_chain (cur : Z) (chain : list ContactNode)
    (rest : list output) :
  visited cur (print_chain chain ++ rest)
  = map (pair cur) chain ++ visited cur rest.
Proof.
  induction chain as [|[n p] chain IH]; [reflexivity|].
  cbn [print_chain map app visited ContactNode.name ContactNode.phone].
  f_equal. exact IH.
Qed.

Lemma visited_app_silent (a b : list output) (cur : Z) :
  (forall c : Z, visited c b = []) ->
  visited cur (a ++ b) = visited cur a.
Proof.
  intros Hb. revert cur. induction a as [|o a IH]; intros cur;
    [apply Hb|].
  destruct o; cbn [app visited]; rewrite ?IH; reflexivity.
Qed.

(** The loop lists the chains from index [k] on, whatever was listed
    before. *)
Lemma display_loop_visited (ht : HashTable) (remaining k : nat)
    (empty : bool) (cur : Z) :
  (k + remaining = length (table ht))%nat ->
  visited cur (snd (display_loop ht remaining (Z.of_nat k) empty))
  = concat (imap (fun i chain => map (pair (Z.of_nat (k + i))) chain)
                 (drop k (table ht))).
Proof.
  revert k empty cur.
  induction remaining as [|r IH]; intros k empty cur Hlen.
  - rewrite drop_ge by lia. reflexivity.
  - destruct (lookup_lt_is_Some_2 (table ht) k) as [x Hx]; [lia|].
    rewrite (drop_S _ _ _ Hx), imap_cons. cbn [concat display_loop].
    assert (Hb : bucket ht (Z.of_nat k) = x).
    { unfold bucket. rewrite Nat2Z.id, Hx. reflexivity. }
    rewrite Hb.
    replace (Z.of_nat k + 1) with (Z.of_nat (S k)) by lia.
    assert (Hrest : forall (e : bool) (c : Z),
               visited c (snd (display_loop ht r (Z.of_nat (S k)) e))
               = concat (imap ((fun i chain =>
                                  map (pair (Z.of_nat (k + i))) chain) ∘ S)
                              (drop (S k) (table ht)))).
    { intros e c. rewrite IH by lia. f_equal. apply imap_ext.
      intros i y _. cbn. do 2 f_equal. lia. }
    destruct x as [|node x'].
    + rewrite Hrest. reflexivity.
    + destruct (display_loop ht r (Z.of_nat (S k)) false) as [e out] eqn:E.
      cbn [snd visited]. rewrite visited_print_chain.
      rewrite Nat.add_0_r. f_equal.
      specialize (Hrest false (Z.of_nat k)). rewrite E in Hrest. exact Hrest.
Qed.

Lemma displayContacts_visited (ht : HashTable) :
  Z.of_nat (length (table ht)) = size ht ->
  visited 0 (snd (displayContacts ht)) = entries ht.
Proof.
  intros Hlen. unfold displayContacts.
  assert (H : visited 0 (snd (display_loop ht (Z.to_nat (size ht)) 0 true))
              = entries ht).
  { apply (display_loop_visited ht (Z.to_nat (size ht)) 0 true 0). lia. }
  destruct (display_loop ht (Z.to_nat (size ht)) 0 true) as [empty out].
  cbn [snd visited] in *. rewrite visited_app_silent; [exact H|].
  intros c. destruct empty; reflexivity.
Qed.

Lemma length_concat_imap (f : nat -> Z) (t : list (list ContactNode)) :
  length (concat (imap (fun i chain => map (pair (f i)) chain) t))
  = length (concat t).
Proof.
  revert f. induction t as [|c t IH]; intros f; [reflexivity|].
  rewrite imap_cons. cbn [concat]. rewrite !List.length_app, length_map.
  f_equal. apply (IH (f ∘ S)).
Qed.

Lemma length_entries (ht : HashTable) : length (entries ht) = entry_count ht.
Proof. apply length_concat_imap. Qed.

Lemma entry_count_create (n : Z) (ht0 : HashTable) :
  createHashTable true true n = Some ht0 -> entry_count ht0 = 0%nat.
Proof.
  intros H. apply createHashTable_Some in H. subst ht0.
  unfold entry_count; cbn [table].
  induction (Z.to_nat n) as [|m IH]; [reflexivity | exact IH].
Qed.

Lemma entry_count_insert (ht : HashTable) (name phone : cstring) :
  wf ht ->
  entry_count (fst (insertContact true ht name phone)) = S (entry_count ht).
Proof.
  intros Hwf. rewrite insertContact_ok. unfold entry_count, set_bucket.
  cbn [fst table].
  pose proof (concat_insert_length (table ht) _ _
                (stored name phone :: bucket ht (hashFunction name (size ht)))
                (wf_bucket_lookup ht name Hwf)) as H.
  cbn [length] in H. lia.
Qed.

Lemma entry_count_inserts (l : list (cstring * cstring)) (ht : HashTable) :
  wf ht ->
  wf (run ht (map insert_op l))
  /\ entry_count (run ht (map insert_op l))
     = (entry_count ht + length l)%nat.
Proof.
  revert ht. induction l as [|[nm ph] l IH]; intros ht Hwf.
  - cbn [map run fold_left length]. split; [exact Hwf | lia].
  - cbn [map]. rewrite run_cons. cbn [insert_op step fst snd].
    destruct (IH _ (insertContact_wf true ht nm ph Hwf)) as [Hw Hc].
    split; [exact Hw|]. rewrite Hc, entry_count_insert by exact Hwf.
    cbn [length]. lia.
Qed.

(** C6: for every table, [displayContacts] lists every stored entry exactly
    once, buckets in index order [0 .. size - 1] and each chain from head to
    tail, and returns the table as it was; the number of entries listed is
    the number of entries stored, so after [N] inserts into a fresh table
    (of distinct names or not) exactly [N] entries are listed; an insert puts
    its entry in front of its chain, so within a bucket the most recently
    inserted entry is listed first. *)
Theorem display_visits_every_entry_once (ht : HashTable) :
  Z.of_nat (length (table ht)) = size ht ->
  fst (displayContacts ht) = ht
  /\ visited 0 (snd (displayContacts ht)) = entries ht
  /\ length (visited 0 (snd (displayContacts ht))) = entry_count ht
  /\ (forall (n : Z) (ht0 : HashTable) (l : list (cstring * cstring)),
        0 < n <= INT_MAX ->
        createHashTable true true n = Some ht0 ->
        length (visited 0
                  (snd (displayContacts (run ht0 (map insert_op l)))))
        = length l)
  /\ (forall name phone : cstring,
        wf ht ->
        bucket (fst (insertContact true ht name phone))
               (hashFunction name (size ht))
        = stored name phone :: bucket ht (hashFunction name (size ht))).
Proof.
  intros Hlen. split; [|split; [|split; [|split]]].
  - unfold displayContacts. destruct (display_loop _ _ _ _). reflexivity.
  - apply displayContacts_visited. exact Hlen.
  - rewrite displayContacts_visited by exact Hlen. apply length_entries.
  - intros n ht0 l Hn Hc.
    destruct (entry_count_inserts l ht0 (wf_create n ht0 Hn Hc)) as [Hw He].
    rewrite displayContacts_visited by apply Hw.
    rewrite length_entries, He, (entry_count_create n ht0 Hc). lia.
  - intros name phone Hwf. apply insertContact_bucket. exact Hwf.
Qed.

(** ** Insert, search and delete together *)

(** C1 (amended): for every name of at most 49 bytes and every phone, after
    an [insertContact] that could allocate, on any table with a positive
    size, [searchContact] with the same name returns an entry whose phone is
    the inserted phone cut after 14 bytes, hence the inserted phone itself
    when that has at most 14 bytes. *)
Theorem insert_then_search (ht : HashTable) (name phone : cstring) :
  wf ht ->
  (length name < MAX_NAME_LEN)%nat ->
  exists node : ContactNode,
    searchContact (fst (insertContact true ht name phone)) name = Some node
    /\ ContactNode.phone node = strncpy_nul phone (MAX_PHONE_LEN - 1)
    /\ ((length phone < MAX_PHONE_LEN)%nat -> ContactNode.phone node = phone).
Proof.
  intros Hwf Hn. exists (stored name phone).
  unfold searchContact. rewrite insertContact_size.
  rewrite insertContact_bucket by exact Hwf.
  split; [|split].
  - apply search_loop_head. apply strncpy_nul_fits.
    unfold MAX_NAME_LEN in *. lia.
  - reflexivity.
  - intros Hp. apply strncpy_nul_fits. unfold MAX_PHONE_LEN in *. lia.
Qed.

(** C2 (amended): on every table with a positive size, for a name of at most
    49 bytes and phones of at most 14 bytes, inserting the name twice and
    searching returns the phone inserted last; both entries are in the chain,
    the newer in front of the older; one delete of the name gives back the
    table as it was after the first insert, where a search returns the older
    phone. *)
Theorem duplicate_names_newest_first (ht : HashTable)
    (name phone1 phone2 : cstring) :
  wf ht ->
  (length name < MAX_NAME_LEN)%nat ->
  (length phone1 < MAX_PHONE_LEN)%nat ->
  (length phone2 < MAX_PHONE_LEN)%nat ->
  let index := hashFunction name (size ht) in
  let ht1 := fst (insertContact true ht name phone1) in
  let ht2 := fst (insertContact true ht1 name phone2) in
  ContactNode.phone <$> searchContact ht2 name = Some phone2
  /\ bucket ht2 index
     = {| ContactNode.name := name; ContactNode.phone := phone2 |}
       :: {| ContactNode.name := name; ContactNode.phone := phone1 |}
       :: bucket ht index
  /\ deleteContact ht2 name = (ht1, [OutDeleted name])
  /\ ContactNode.phone <$> searchContact ht1 name = Some phone1.
Proof.
  intros Hwf Hn Hp1 Hp2 index ht1 ht2.
  assert (Hwf1 : wf ht1) by (apply insertContact_wf; exact Hwf).
  assert (Hs1 : size ht1 = size ht) by apply insertContact_size.
  assert (Hb1 : bucket ht1 index
                = {| ContactNode.name := name; ContactNode.phone := phone1 |}
                  :: bucket ht index).
  { unfold ht1, index. rewrite insertContact_bucket by exact Hwf.
    rewrite stored_fits by assumption. reflexivity. }
  assert (Hb2 : bucket ht2 index
                = {| ContactNode.name := name; ContactNode.phone := phone2 |}
                  :: bucket ht1 index).
  { unfold ht2, index. rewrite <- Hs1.
    rewrite insertContact_bucket by exact Hwf1.
    rewrite stored_fits by assumption. reflexivity. }
  assert (Hs2 : size ht2 = size ht)
    by (unfold ht2; rewrite insertContact_size; exact Hs1).
  split; [|split; [|split]].
  - unfold searchContact. rewrite Hs2. fold index. rewrite Hb2.
    rewrite search_loop_head by reflexivity. reflexivity.
  - rewrite Hb2, Hb1. reflexivity.
  - unfold deleteContact. rewrite Hs2. fold index. rewrite Hb2.
    rewrite delete_loop_head by reflexivity. f_equal.
    unfold ht2. rewrite insertContact_ok. cbn [fst].
    rewrite Hs1. fold index. rewrite set_bucket_twice. apply set_bucket_same.
  - unfold searchContact. rewrite Hs1. fold index. rewrite Hb1.
    rewrite search_loop_head by reflexivity. reflexivity.
Qed.

(** C4: for every table, of a positive size as the hash needs it, and every
    name with no exactly matching entry in the chain of its bucket,
    [deleteContact] reports not-found and returns the table it was given; a
    table as created with a positive size, with all chains empty, is one case
    of this. *)
Theorem delete_absent_is_noop (ht : HashTable) (name : cstring) :
  wf ht ->
  Forall (fun node => ContactNode.name node <> name)
         (bucket ht (hashFunction name (size ht))) ->
  deleteContact ht name = (ht, [OutNotFound name])
  /\ (forall (n : Z) (ht0 : HashTable),
        0 < n <= INT_MAX ->
        createHashTable true true n = Some ht0 ->
        deleteContact ht0 name = (ht0, [OutNotFound name])).
Proof.
  intros _ H. split.
  - unfold deleteContact. rewrite delete_loop_none by exact H.
    reflexivity.
  - intros n ht0 _ Hc. unfold deleteContact.
    rewrite (bucket_create n ht0 _ Hc). reflexivity.
Qed.

(** The deletes of a name whose chain holds [k >= 1] entries of that name. *)
Lemma delete_first_match_in_chain (ht : HashTable) (name : cstring)
    (k : nat) :
  wf ht ->
  let index := hashFunction name (size ht) in
  matches name (bucket ht index) = k ->
  (1 <= k)%nat ->
  (exists (pre : list ContactNode) (node : ContactNode)
          (post : list ContactNode),
      bucket ht index = pre ++ node :: post
      /\ Forall (fun n => ContactNode.name n <> name) pre
      /\ ContactNode.name node = name
      /\ (matches name post + 1 = k)%nat
      /\ deleteContact ht name
         = (set_bucket ht index (pre ++ post), [OutDeleted name]))
  /\ (entry_count (fst (deleteContact ht name)) + 1 = entry_count ht)%nat
  /\ (forall j : nat, (j <= k)%nat ->
        (matches name (bucket (delete_n ht name j) index) + j = k)%nat
        /\ (entry_count (delete_n ht name j) + j = entry_count ht)%nat)
  /\ (forall j : nat, (j < k)%nat ->
        snd (deleteContact (delete_n ht name j) name) = [OutDeleted name])
  /\ snd (deleteContact (delete_n ht name k) name) = [OutNotFound name].
Proof.
  intros Hwf index Hk Hpos. subst index.
  destruct k as [|k']; [lia|].
  destruct (deleteContact_once ht name k' Hwf Hk)
    as (pre & node & post & Hsplit & Hpre & Hnode & Hpost & Hcall & _ & He).
  split; [|split; [|split; [|split]]].
  - exists pre, node, post. repeat split; try assumption. lia.
  - lia.
  - intros j Hj.
    destruct (delete_n_state ht name (S k') j Hwf Hk Hj) as (_ & _ & Hm & Hc).
    split; assumption.
  - intros j Hj.
    destruct (delete_n_state ht name (S k') j Hwf Hk) as (Hwfj & Hsj & Hm & _);
      [lia|].
    destruct (deleteContact_once (delete_n ht name j) name (k' - j) Hwfj)
      as (prej & nodej & postj & _ & _ & _ & _ & Hcallj & _).
    { rewrite Hsj. lia. }
    rewrite Hcallj. reflexivity.
  - destruct (delete_n_state ht name (S k') (S k') Hwf Hk)
      as (_ & Hsj & Hm & _); [lia|].
    unfold deleteContact. rewrite Hsj.
    rewrite delete_loop_none; [reflexivity|].
    apply matches_zero. lia.
Qed.

Lemma bucket_inv_delete_n (ht : HashTable) (name : cstring) (j : nat) :
  bucket_inv ht -> bucket_inv (delete_n ht name j).
Proof.
  intros Hinv. induction j as [|j IH]; [exact Hinv|].
  rewrite delete_n_S. apply bucket_inv_delete. exact IH.
Qed.

(** C5 (amended): for every table of a positive size in which every entry
    sits in the bucket its stored name hashes to, and which stores [k >= 1]
    entries with exactly the query's name, one [deleteContact] unlinks the
    first of them in the chain and nothing else: the entries in front of it
    and behind it stay, among them the [k - 1] later duplicates, and the
    table has one entry less.  Each of the first [k] calls reports a
    deletion, after [j <= k] calls the table stores [k - j] entries of the
    name, and only after [k] calls does a further call report not-found. *)
Theorem delete_removes_first_match (ht : HashTable) (name : cstring)
    (k : nat) :
  wf ht ->
  bucket_inv ht ->
  matches name (concat (table ht)) = k ->
  (1 <= k)%nat ->
  let index := hashFunction name (size ht) in
  (exists (pre : list ContactNode) (node : ContactNode)
          (post : list ContactNode),
      bucket ht index = pre ++ node :: post
      /\ Forall (fun n => ContactNode.name n <> name) pre
      /\ ContactNode.name node = name
      /\ (matches name post + 1 = k)%nat
      /\ deleteContact ht name
         = (set_bucket ht index (pre ++ post), [OutDeleted name]))
  /\ (entry_count (fst (deleteContact ht name)) + 1 = entry_count ht)%nat
  /\ (forall j : nat, (j <= k)%nat ->
        (matches name (concat (table (delete_n ht name j))) + j = k)%nat
        /\ (entry_count (delete_n ht name j) + j = entry_count ht)%nat)
  /\ (forall j : nat, (j < k)%nat ->
        snd (deleteContact (delete_n ht name j) name) = [OutDeleted name])
  /\ snd (deleteContact (delete_n ht name k) name) = [OutNotFound name].
Proof.
  intros Hwf Hinv Hk Hpos index. subst index.
  rewrite matches_store_wide in Hk by assumption.
  destruct (delete_first_match_in_chain ht name k Hwf Hk Hpos)
    as (Hfirst & Hcount & Hafter & Hdel & Hlast).
  split; [exact Hfirst|]. split; [exact Hcount|].
  split; [|split; [exact Hdel | exact Hlast]].
  intros j Hj. destruct (Hafter j Hj) as [Hm Hc]. split; [|exact Hc].
  destruct (delete_n_state ht name k j Hwf Hk Hj) as (Hwfj & Hsj & _ & _).
  rewrite matches_store_wide, Hsj;
    [exact Hm | exact Hwfj | apply bucket_inv_delete_n; exact Hinv].
Qed.

(** C9 (amended): for every name and phone, an [insertContact] that could
    allocate succeeds: it puts at the head of the name's chain a new entry
    holding the name cut after 49 bytes and the phone cut after 14 bytes,
    leaves every other bucket as it was, and reports success with the name
    and phone it was called with; the reported strings are the stored ones
    when the name has at most 49 bytes and the phone at most 14 bytes.  Without
    memory the table is returned as it was. *)
Theorem insert_reports_arguments (ht : HashTable) (name phone : cstring) :
  wf ht ->
  let index := hashFunction name (size ht) in
  let ht' := fst (insertContact true ht name phone) in
  let node := stored name phone in
  snd (insertContact true ht name phone) = [OutAdded name phone]
  /\ size ht' = size ht
  /\ bucket ht' index = node :: bucket ht index
  /\ (forall j : Z, Z.to_nat j <> Z.to_nat index -> bucket ht' j = bucket ht j)
  /\ ContactNode.name node = take 49 name
  /\ ContactNode.phone node = take 14 phone
  /\ ((length name < MAX_NAME_LEN)%nat ->
      (length phone < MAX_PHONE_LEN)%nat ->
      snd (insertContact true ht name phone)
      = [OutAdded (ContactNode.name node) (ContactNode.phone node)])
  /\ insertContact false ht name phone = (ht, [OutAllocFailed]).
Proof.
  intros Hwf index ht' node. repeat split.
  - apply insertContact_bucket. exact Hwf.
  - intros j Hj. unfold ht'. rewrite insertContact_ok; simpl.
    apply bucket_set_bucket_ne. fold index. congruence.
  - intros Hn Hp. unfold node. rewrite stored_fits by assumption. reflexivity.
Qed.

(** C10 (amended): [insertContact] hashes the name as given and stores it cut
    after 49 bytes, while [searchContact] and [deleteContact] hash and
    compare the query as given.  So for every name longer than 49 bytes,
    after it was inserted a search or a delete with that same name finds
    nothing; a search with the 49-byte prefix finds the new entry when the
    prefix hashes to the bucket of the full name, and otherwise sees only
    what its own bucket held before the insert. *)
Theorem truncation_asymmetry (ht : HashTable) (name phone : cstring) :
  wf ht ->
  names_fit ht ->
  (MAX_NAME_LEN <= length name)%nat ->
  let ht' := fst (insertContact true ht name phone) in
  let prefix := take (MAX_NAME_LEN - 1) name in
  searchContact ht' name = None
  /\ deleteContact ht' name = (ht', [OutNotFound name])
  /\ (hashFunction prefix (size ht) = hashFunction name (size ht) ->
      searchContact ht' prefix = Some (stored name phone))
  /\ (hashFunction prefix (size ht) <> hashFunction name (size ht) ->
      searchContact ht' prefix = searchContact ht prefix).
Proof.
  intros Hwf Hfit Hlong ht' prefix.
  assert (Hs : size ht' = size ht) by apply insertContact_size.
  assert (Hb : bucket ht' (hashFunction name (size ht))
               = stored name phone :: bucket ht (hashFunction name (size ht)))
    by (apply insertContact_bucket; exact Hwf).
  assert (Hno : Forall (fun node => ContactNode.name node <> name)
                  (bucket ht' (hashFunction name (size ht)))).
  { rewrite Hb. constructor.
    - unfold stored. cbn [ContactNode.name]. intros Heq.
      pose proof (strncpy_nul_length name (MAX_NAME_LEN - 1)) as Hlen.
      rewrite Heq in Hlen. unfold MAX_NAME_LEN in *. lia.
    - apply names_fit_bucket; assumption. }
  split; [|split; [|split]].
  - unfold searchContact. rewrite Hs. apply search_loop_none. exact Hno.
  - unfold deleteContact. rewrite Hs. rewrite delete_loop_none by exact Hno.
    reflexivity.
  - intros Hh. unfold searchContact. rewrite Hs, Hh, Hb.
    apply search_loop_head. reflexivity.
  - intros Hh. unfold searchContact. rewrite Hs. f_equal.
    unfold ht'. rewrite insertContact_ok; simpl.
    apply bucket_set_bucket_ne.
    destruct Hwf as [Hsz _].
    pose proof (hashFunction_range prefix (size ht) Hsz).
    pose proof (hashFunction_range name (size ht) Hsz).
    lia.
Qed.

(** * Further properties of the table operations *)

(** ** Search *)

Lemma search_loop_first (chain : list ContactNode) (q : cstring)
    (node : ContactNode) :
  search_loop chain q = Some node ->
  ContactNode.name node = q
  /\ exists pre post : list ContactNode,
       chain = pre ++ node :: post
       /\ Forall (fun n => ContactNode.name n <> q) pre.
Proof.
  induction chain as [|n chain IH]; cbn [search_loop]; [discriminate|].
  destruct (strcmp (ContactNode.name n) q =? 0) eqn:E.
  - intros [= <-]. apply strcmp_eqb_true in E. split; [exact E|].
    exists [], chain. split; [reflexivity | constructor].
  - intros H. apply strcmp_eqb_false in E.
    destruct (IH H) as (Hname & pre & post & -> & Hpre).
    split; [exact Hname|]. exists (n :: pre), post.
    split; [reflexivity | constructor; assumption].
Qed.

Lemma search_loop_None (chain : list ContactNode) (q : cstring) :
  search_loop chain q = None
  <-> Forall (fun n => ContactNode.name n <> q) chain.
Proof.
  split; [|apply search_loop_none].
  induction chain as [|n chain IH]; cbn [search_loop]; [constructor|].
  destruct (strcmp (ContactNode.name n) q =? 0) eqn:E; [discriminate|].
  intros H. apply strcmp_eqb_false in E. constructor; [exact E | exact (IH H)].
Qed.

(** X1: in a table of a positive size a search returns the first entry of
    the query's chain whose name is exactly the query, and not-found exactly
    when the chain has none. *)
Theorem search_returns_first_match (ht : HashTable) (q : cstring) :
  wf ht ->
  (forall node : ContactNode,
      searchContact ht q = Some node ->
      ContactNode.name node = q
      /\ exists pre post : list ContactNode,
           bucket ht (hashFunction q (size ht)) = pre ++ node :: post
           /\ Forall (fun n => ContactNode.name n <> q) pre)
  /\ (searchContact ht q = None
      <-> Forall (fun n => ContactNode.name n <> q)
                 (bucket ht (hashFunction q (size ht)))).
Proof.
  intros _. split.
  - intros node. apply search_loop_first.
  - apply search_loop_None.
Qed.

Lemma in_table_lookup (ht : HashTable) (node : ContactNode) :
  In node (concat (table ht)) ->
  exists (i : nat) (chain : list ContactNode),
    table ht !! i = Some chain /\ In node chain.
Proof.
  intros H. apply in_concat in H. destruct H as (chain & Hc & Hn).
  apply list_elem_of_In, list_elem_of_lookup_1 in Hc. destruct Hc as [i Hi].
  exists i, chain. split; assumption.
Qed.

Lemma entry_found (ht : HashTable) (node : ContactNode) :
  bucket_inv ht ->
  In node (concat (table ht)) ->
  exists found : ContactNode,
    searchContact ht (ContactNode.name node) = Some found
    /\ ContactNode.name found = ContactNode.name node.
Proof.
  intros Hinv Hin.
  - destruct (in_table_lookup ht node Hin) as (i & chain & Hi & Hn).
    pose proof (Hinv i chain Hi) as Hh.
    rewrite Forall_forall in Hh. specialize (Hh node).
    rewrite list_elem_of_In in Hh. specialize (Hh Hn).
    destruct (searchContact ht (ContactNode.name node)) as [found|] eqn:E.
    + exists found. split; [reflexivity|].
      unfold searchContact in E. apply search_loop_first in E. apply E.
    + exfalso. unfold searchContact in E. apply search_loop_None in E.
      unfold bucket in E. rewrite Hh, Nat2Z.id, Hi in E. cbn [default] in E.
      rewrite Forall_forall in E. apply (E node); [|reflexivity].
      apply list_elem_of_In. exact Hn.
Qed.

(** X2: in a table that keeps the bucket invariant every stored entry is
    found by its name, the search returns an entry of that name, and a
    search reports not-found exactly when no entry of the whole table has the
    name. *)
Theorem stored_entries_are_found (ht : HashTable) :
  wf ht ->
  bucket_inv ht ->
  (forall node : ContactNode,
      In node (concat (table ht)) ->
      exists found : ContactNode,
        searchContact ht (ContactNode.name node) = Some found
        /\ ContactNode.name found = ContactNode.name node)
  /\ (forall q : cstring,
        searchContact ht q = None <-> matches q (concat (table ht)) = 0%nat).
Proof.
  intros Hwf Hinv. split.
  - intros node. apply entry_found. exact Hinv.
  - intros q. rewrite matches_store_wide by assumption.
    unfold searchContact. rewrite search_loop_None.
    split; [apply matches_none | apply matches_zero].
Qed.

(** ** How the operations compose *)

(** X3: inserting a name of at most 49 bytes and deleting it at once gives
    back the table exactly as it was, with a success message. *)
Theorem insert_delete_roundtrip (ht : HashTable) (name phone : cstring) :
  wf ht ->
  (length name < MAX_NAME_LEN)%nat ->
  deleteContact (fst (insertContact true ht name phone)) name
  = (ht, [OutDeleted name]).
Proof.
  intros Hwf Hfit. unfold deleteContact.
  rewrite insertContact_size, insertContact_bucket by exact Hwf.
  rewrite delete_loop_head.
  - rewrite insertContact_ok. cbn [fst].
    rewrite set_bucket_twice, set_bucket_same. reflexivity.
  - apply strncpy_nul_fits. unfold MAX_NAME_LEN in *. lia.
Qed.

(** X4: an insert changes the answer of no search but those for the name it
    stored, the inserted name cut after 49 bytes. *)
Theorem insert_preserves_other_lookups (ok : bool) (ht : HashTable)
    (name phone q : cstring) :
  wf ht ->
  q <> strncpy_nul name (MAX_NAME_LEN - 1) ->
  searchContact (fst (insertContact ok ht name phone)) q = searchContact ht q.
Proof.
  intros Hwf Hq. destruct ok; [|reflexivity].
  unfold searchContact. rewrite insertContact_size.
  destruct (decide (hashFunction q (size ht) = hashFunction name (size ht)))
    as [E | E].
  - rewrite E, insertContact_bucket by exact Hwf.
    apply search_loop_skip. unfold stored. cbn [ContactNode.name]. congruence.
  - rewrite insertContact_ok. cbn [fst]. f_equal.
    apply bucket_set_bucket_ne.
    destruct Hwf as [Hs _].
    pose proof (hashFunction_range q (size ht) Hs).
    pose proof (hashFunction_range name (size ht) Hs). lia.
Qed.

Lemma delete_loop_other (chain chain' : list ContactNode) (name q : cstring) :
  delete_loop chain name = Some chain' ->
  q <> name ->
  search_loop chain' q = search_loop chain q.
Proof.
  intros Hd Hq. revert chain' Hd.
  induction chain as [|n chain IH]; intros chain'; cbn [delete_loop];
    [discriminate|].
  destruct (strcmp (ContactNode.name n) name =? 0) eqn:E.
  - intros [= <-]. apply strcmp_eqb_true in E.
    symmetry. apply search_loop_skip. congruence.
  - destruct (delete_loop chain name) as [c|]; [|discriminate].
    intros [= <-]. cbn [search_loop].
    destruct (strcmp (ContactNode.name n) q =? 0); [reflexivity|].
    apply IH. reflexivity.
Qed.

(** X5: a delete changes the answer of no search for another name. *)
Theorem delete_preserves_other_lookups (ht : HashTable) (name q : cstring) :
  wf ht ->
  q <> name ->
  searchContact (fst (deleteContact ht name)) q = searchContact ht q.
Proof.
  intros Hwf Hq. unfold searchContact. rewrite deleteContact_size.
  unfold deleteContact.
  destruct (delete_loop (bucket ht (hashFunction name (size ht))) name)
    as [chain'|] eqn:Hd; cbn [fst]; [|reflexivity].
  destruct (decide (hashFunction q (size ht) = hashFunction name (size ht)))
    as [E | E].
  - rewrite E, bucket_set_bucket by (apply wf_index; exact Hwf).
    eapply delete_loop_other; eassumption.
  - f_equal. apply bucket_set_bucket_ne.
    destruct Hwf as [Hs _].
    pose proof (hashFunction_range q (size ht) Hs).
    pose proof (hashFunction_range name (size ht) Hs). lia.
Qed.

(** X6: with [k] entries of a name in its chain, the name is still found
    after fewer than [k] deletes and no longer after [k] of them. *)
Theorem search_after_deletes (ht : HashTable) (name : cstring) (k : nat) :
  wf ht ->
  matches name (bucket ht (hashFunction name (size ht))) = k ->
  searchContact (delete_n ht name k) name = None
  /\ (forall j : nat, (j < k)%nat ->
        exists found : ContactNode,
          searchContact (delete_n ht name j) name = Some found
          /\ ContactNode.name found = name).
Proof.
  intros Hwf Hk. split.
  - destruct (delete_n_state ht name k k Hwf Hk) as (_ & Hs & Hm & _); [lia|].
    unfold searchContact. rewrite Hs. apply search_loop_none.
    apply matches_zero. lia.
  - intros j Hj.
    destruct (delete_n_state ht name k j Hwf Hk) as (_ & Hs & Hm & _); [lia|].
    unfold searchContact. rewrite Hs.
    destruct (search_loop (bucket (delete_n ht name j)
                             (hashFunction name (size ht))) name)
      as [found|] eqn:E.
    + exists found. split; [reflexivity|].
      apply search_loop_first in E. apply E.
    + apply search_loop_None, matches_none in E. lia.
Qed.

(** X7: no operation ever changes the size of the table or its number of
    buckets: there is no resizing and no rehashing. *)
Theorem run_keeps_size (ops : list Op) (ht : HashTable) :
  size (run ht ops) = size ht
  /\ length (table (run ht ops)) = length (table ht).
Proof.
  revert ht. induction ops as [|op ops IH]; intros ht; [split; reflexivity|].
  rewrite run_cons. destruct (IH (step ht op)) as [-> ->].
  destruct op as [ok name phone | name]; cbn [step].
  - destruct ok; [|split; reflexivity].
    rewrite insertContact_ok. cbn [fst set_bucket size table].
    rewrite length_insert. split; reflexivity.
  - unfold deleteContact. destruct (delete_loop _ name); cbn [fst];
      [|split; reflexivity].
    cbn [set_bucket size table]. rewrite length_insert. split; reflexivity.
Qed.

Lemma delete_loop_length (chain chain' : list ContactNode) (name : cstring) :
  delete_loop chain name = Some chain' -> length chain = S (length chain').
Proof.
  revert chain'. induction chain as [|n chain IH]; intros chain';
    cbn [delete_loop]; [discriminate|].
  destruct (strcmp (ContactNode.name n) name =? 0).
  - intros [= <-]. reflexivity.
  - destruct (delete_loop chain name) as [c|]; [|discriminate].
    intros [= <-]. cbn [length]. f_equal. apply IH. reflexivity.
Qed.

Lemma step_out_count (ht : HashTable) (op : Op) :
  wf ht ->
  (entry_count (fst (step_out ht op))
   + length (List.filter is_deleted (snd (step_out ht op)))
   = entry_count ht
     + length (List.filter is_added (snd (step_out ht op))))%nat.
Proof.
  intros Hwf. destruct op as [ok name phone | name]; cbn [step_out].
  - destruct ok; [|cbn; lia].
    rewrite entry_count_insert by exact Hwf. cbn. lia.
  - unfold deleteContact.
    destruct (delete_loop (bucket ht (hashFunction name (size ht))) name)
      as [chain'|] eqn:Hd; [|cbn; lia].
    cbn [fst snd List.filter is_deleted is_added length].
    apply delete_loop_length in Hd.
    pose proof (concat_insert_length (table ht) _ _ chain'
                  (wf_bucket_lookup ht name Hwf)) as H.
    unfold entry_count, set_bucket; cbn [table]. lia.
Qed.

Lemma step_out_step (ht : HashTable) (op : Op) :
  fst (step_out ht op) = step ht op.
Proof. destruct op; reflexivity. Qed.

(** X8: over any sequence of inserts and deletes the number of stored
    entries is the number before, plus the successes reported by inserts,
    minus the successes reported by deletes. *)
Theorem entry_count_balance (ops : list Op) (ht : HashTable) :
  wf ht ->
  fst (run_out ht ops) = run ht ops
  /\ (entry_count (fst (run_out ht ops))
      + length (List.filter is_deleted (snd (run_out ht ops)))
      = entry_count ht
        + length (List.filter is_added (snd (run_out ht ops))))%nat.
Proof.
  revert ht. induction ops as [|op ops IH]; intros ht Hwf.
  - cbn. split; [reflexivity | lia].
  - cbn [run_out]. rewrite run_cons.
    pose proof (step_out_count ht op Hwf) as Hc.
    pose proof (step_out_step ht op) as Hs.
    destruct (step_out ht op) as [ht' out]. cbn [fst snd] in Hc, Hs.
    assert (Hwf' : wf ht') by (rewrite Hs; apply step_wf; exact Hwf).
    destruct (IH ht' Hwf') as [Hr Hb]. rewrite <- Hs.
    destruct (run_out ht' ops) as [ht'' out']. cbn [fst snd] in *.
    split; [exact Hr|]. rewrite !List.filter_app, !List.length_app. lia.
Qed.

Lemma fields_fit_chain (ht : HashTable) (i : Z) :
  fields_fit ht ->
  Forall (fun node =>
    (length (ContactNode.name node) < MAX_NAME_LEN)%nat
    /\ (length (ContactNode.phone node) < MAX_PHONE_LEN)%nat) (bucket ht i).
Proof.
  intros Hfit. unfold bucket.
  destruct (table ht !! Z.to_nat i) as [chain|] eqn:E; simpl; [|constructor].
  exact (Forall_lookup_1 _ _ _ _ Hfit E).
Qed.

Lemma fields_fit_step (ht : HashTable) (op : Op) :
  fields_fit ht -> fields_fit (step ht op).
Proof.
  intros Hfit. destruct op as [ok name phone | name]; cbn [step].
  - destruct ok; [|exact Hfit]. rewrite insertContact_ok. cbn [fst].
    unfold fields_fit, set_bucket; cbn [table].
    apply Forall_insert; [exact Hfit|].
    constructor; [|apply fields_fit_chain; exact Hfit].
    unfold stored. cbn [ContactNode.name ContactNode.phone].
    pose proof (strncpy_nul_length name (MAX_NAME_LEN - 1)).
    pose proof (strncpy_nul_length phone (MAX_PHONE_LEN - 1)).
    unfold MAX_NAME_LEN, MAX_PHONE_LEN in *. lia.
  - unfold deleteContact.
    destruct (delete_loop _ name) as [chain'|] eqn:E; cbn [fst];
      [|exact Hfit].
    unfold fields_fit, set_bucket; cbn [table].
    apply Forall_insert; [exact Hfit|].
    eapply delete_loop_Forall; [exact E|]. apply fields_fit_chain. exact Hfit.
Qed.

Lemma fields_fit_create (n : Z) (ht0 : HashTable) :
  createHashTable true true n = Some ht0 -> fields_fit ht0.
Proof.
  intros H. apply createHashTable_Some in H. subst ht0.
  unfold fields_fit; cbn [table]. apply Forall_replicate. constructor.
Qed.

(** X9: whatever is inserted, no table reached from a fresh one ever holds a
    name of more than 49 bytes or a phone of more than 14 bytes: the stored
    strings fit their buffers with the terminator. *)
Theorem stored_fields_fit (n : Z) (ht0 : HashTable) (ops : list Op) :
  createHashTable true true n = Some ht0 -> fields_fit (run ht0 ops).
Proof.
  intros H. apply fields_fit_create in H. revert ht0 H.
  induction ops as [|op ops IH]; intros ht Hfit; [exact Hfit|].
  rewrite run_cons. apply IH. apply fields_fit_step. exact Hfit.
Qed.

(** ** Display, creation and teardown *)

Lemma bucket_lines_print_chain (chain : list ContactNode)
    (rest : list output) :
  bucket_lines (print_chain chain ++ rest) = bucket_lines rest.
Proof. induction chain as [|n chain IH]; [reflexivity | exact IH]. Qed.

Lemma not_empty_print_chain (chain : list ContactNode) :
  ~ In OutEmpty (print_chain chain).
Proof.
  induction chain as [|n chain IH]; cbn; [tauto|].
  intros [H | H]; [discriminate | exact (IH H)].
Qed.

Lemma nonempty_from_nil (k : nat) (t : list (list ContactNode)) :
  nonempty_from k t = [] <-> concat t = [].
Proof.
  revert k. induction t as [|[|n c] t IH]; intros k; cbn.
  - tauto.
  - apply IH.
  - split; discriminate.
Qed.

(** The loop prints a bucket line for the chains that are not empty, clears
    the flag when there is one, and never prints the empty notice itself. *)
Lemma display_loop_lines (ht : HashTable) (remaining k : nat) (empty : bool) :
  (k + remaining = length (table ht))%nat ->
  bucket_lines (snd (display_loop ht remaining (Z.of_nat k) empty))
  = nonempty_from k (drop k (table ht))
  /\ fst (display_loop ht remaining (Z.of_nat k) empty)
     = match nonempty_from k (drop k (table ht)) with
       | [] => empty
       | _ :: _ => false
       end
  /\ ~ In OutEmpty (snd (display_loop ht remaining (Z.of_nat k) empty)).
Proof.
  revert k empty. induction remaining as [|r IH]; intros k empty Hlen.
  - rewrite drop_ge by lia. cbn. tauto.
  - destruct (lookup_lt_is_Some_2 (table ht) k) as [x Hx]; [lia|].
    rewrite (drop_S _ _ _ Hx). cbn [display_loop].
    assert (Hb : bucket ht (Z.of_nat k) = x).
    { unfold bucket. rewrite Nat2Z.id, Hx. reflexivity. }
    rewrite Hb. replace (Z.of_nat k + 1) with (Z.of_nat (S k)) by lia.
    destruct x as [|node x']; cbn [nonempty_from].
    + apply IH. lia.
    + destruct (IH (S k) false ltac:(lia)) as (Hl & Hf & Hn).
      destruct (display_loop ht r (Z.of_nat (S k)) false) as [e out].
      cbn [fst snd] in *. split; [|split].
      * cbn [bucket_lines]. f_equal.
        rewrite (bucket_lines_print_chain (node :: x') out). exact Hl.
      * rewrite Hf. destruct (nonempty_from (S k) _); reflexivity.
      * intros [H | H]; [discriminate|].
        apply in_app_or in H. destruct H as [H | H]; [|exact (Hn H)].
        exact (not_empty_print_chain (node :: x') H).
Qed.

Lemma display_loop_all_empty (ht : HashTable) (remaining k : nat)
    (empty : bool) :
  (k + remaining = length (table ht))%nat ->
  concat (drop k (table ht)) = [] ->
  display_loop ht remaining (Z.of_nat k) empty = (empty, []).
Proof.
  revert k. induction remaining as [|r IH]; intros k Hlen Hc; [reflexivity|].
  destruct (lookup_lt_is_Some_2 (table ht) k) as [x Hx]; [lia|].
  rewrite (drop_S _ _ _ Hx) in Hc. cbn [concat] in Hc.
  apply app_eq_nil in Hc. destruct Hc as [-> Hc].
  cbn [display_loop]. unfold bucket at 1. rewrite Nat2Z.id, Hx. cbn [default].
  replace (Z.of_nat k + 1) with (Z.of_nat (S k)) by lia.
  apply IH; [lia | exact Hc].
Qed.

Lemma displayContacts_all_empty (ht : HashTable) :
  Z.of_nat (length (table ht)) = size ht ->
  concat (table ht) = [] ->
  displayContacts ht = (ht, [OutHeader; OutEmpty; OutFooter]).
Proof.
  intros Hlen Hc. unfold displayContacts.
  pose proof (display_loop_all_empty ht (Z.to_nat (size ht)) 0 true) as H.
  change (Z.of_nat 0) with 0 in H. rewrite drop_0 in H.
  rewrite H; [reflexivity | cbn; lia | exact Hc].
Qed.

(** X10: a display prints the empty notice exactly when the table stores no
    entry: then the output is the header, the notice and the footer, and
    otherwise the notice does not occur in it. *)
Theorem display_reports_empty (ht : HashTable) :
  Z.of_nat (length (table ht)) = size ht ->
  (entry_count ht = 0%nat ->
   displayContacts ht = (ht, [OutHeader; OutEmpty; OutFooter]))
  /\ (entry_count ht <> 0%nat -> ~ In OutEmpty (snd (displayContacts ht))).
Proof.
  intros Hlen. split.
  - intros H0. apply displayContacts_all_empty; [exact Hlen|].
    apply length_zero_iff_nil. exact H0.
  - intros Hne. unfold displayContacts.
    destruct (display_loop_lines ht (Z.to_nat (size ht)) 0 true)
      as (_ & Hf & Hn); [cbn; lia|].
    change (Z.of_nat 0) with 0 in *. rewrite drop_0 in Hf.
    destruct (display_loop ht (Z.to_nat (size ht)) 0 true) as [e out].
    cbn [fst snd] in *.
    destruct (nonempty_from 0 (table ht)) as [|i l] eqn:E.
    + exfalso. apply Hne. apply nonempty_from_nil in E.
      unfold entry_count. rewrite E. reflexivity.
    + subst e. intros [H | H]; [discriminate|].
      apply in_app_or in H. destruct H as [H | H]; [exact (Hn H)|].
      cbn in H. destruct H as [H | H]; [discriminate | exact H].
Qed.

Lemma bucket_lines_app_silent (out tail : list output) :
  bucket_lines tail = [] -> bucket_lines (out ++ tail) = bucket_lines out.
Proof.
  intros Ht. induction out as [|o out IH]; [exact Ht|].
  destruct o; cbn [app bucket_lines]; rewrite ?IH; reflexivity.
Qed.

(** X11: a display prints one bucket line for each chain that is not empty
    and none for an empty one, in increasing order of the index. *)
Theorem display_bucket_lines (ht : HashTable) :
  Z.of_nat (length (table ht)) = size ht ->
  bucket_lines (snd (displayContacts ht)) = nonempty_from 0 (table ht).
Proof.
  intros Hlen. unfold displayContacts.
  destruct (display_loop_lines ht (Z.to_nat (size ht)) 0 true)
    as (Hl & _ & _); [cbn; lia|].
  change (Z.of_nat 0) with 0 in *. rewrite drop_0 in Hl.
  destruct (display_loop ht (Z.to_nat (size ht)) 0 true) as [e out].
  cbn [fst snd bucket_lines] in *. rewrite <- Hl.
  apply bucket_lines_app_silent. destruct e; reflexivity.
Qed.

(** X12: [createHashTable] fails exactly when an allocation fails or the
    size is negative; the table it returns has the requested size, that many
    buckets and no entry: a display of it prints the empty notice and, when
    the size is positive, every search in it reports not-found. *)
Theorem createHashTable_fresh (malloc_ok calloc_ok : bool) (n : Z) :
  (createHashTable malloc_ok calloc_ok n = None
   <-> malloc_ok = false \/ calloc_ok = false \/ n < 0)
  /\ (forall ht0 : HashTable,
        createHashTable malloc_ok calloc_ok n = Some ht0 ->
        size ht0 = n
        /\ Z.of_nat (length (table ht0)) = n
        /\ entry_count ht0 = 0%nat
        /\ (0 < n <= INT_MAX ->
            forall q : cstring, searchContact ht0 q = None)
        /\ displayContacts ht0 = (ht0, [OutHeader; OutEmpty; OutFooter])).
Proof.
  split.
  - unfold createHashTable.
    destruct malloc_ok, calloc_ok, (Z.ltb_spec n 0) as [Hlt | Hge]; cbn;
      split; intros Hc; try discriminate; try tauto;
      destruct Hc as [Hc | [Hc | Hc]]; try discriminate; lia.
  - intros ht0 H.
    assert (Hn : 0 <= n).
    { unfold createHashTable in H.
      destruct malloc_ok, calloc_ok, (Z.ltb_spec n 0) as [Hlt | Hge];
        cbn in H; try discriminate; lia. }
    assert (H' : createHashTable true true n = Some ht0).
    { unfold createHashTable in *.
      destruct malloc_ok, calloc_ok; cbn in *; try discriminate; try exact H.
      destruct (n <? 0); discriminate. }
    pose proof (entry_count_create n ht0 H') as Hc.
    pose proof (bucket_create n ht0) as Hb.
    pose proof (createHashTable_Some n ht0 H') as ->.
    cbn [size table] in *.
    assert (Hl : Z.of_nat (length (replicate (Z.to_nat n) ([] : list ContactNode)))
                 = n) by (rewrite length_replicate; lia).
    split; [reflexivity|]. split; [exact Hl|]. split; [exact Hc|].
    split.
    + intros _ q. unfold searchContact. rewrite (Hb _ H'). reflexivity.
    + apply displayContacts_all_empty; [exact Hl|].
      apply length_zero_iff_nil. exact Hc.
Qed.

Lemma free_loop_concat (ht : HashTable) (remaining k : nat) :
  (k + remaining = length (table ht))%nat ->
  free_loop ht remaining (Z.of_nat k)
  = map FreeNode (concat (drop k (table ht))).
Proof.
  revert k. induction remaining as [|r IH]; intros k Hlen.
  - rewrite drop_ge by lia. reflexivity.
  - destruct (lookup_lt_is_Some_2 (table ht) k) as [x Hx]; [lia|].
    rewrite (drop_S _ _ _ Hx). cbn [free_loop concat].
    unfold bucket at 1. rewrite Nat2Z.id, Hx. cbn [default].
    replace (Z.of_nat k + 1) with (Z.of_nat (S k)) by lia.
    rewrite IH by lia. rewrite List.map_app. reflexivity.
Qed.

Lemma freed_nodes_map (l : list ContactNode) (rest : list teardown_event) :
  freed_nodes (map FreeNode l ++ rest) = l ++ freed_nodes rest.
Proof.
  induction l as [|n l IH]; [reflexivity|]. cbn. f_equal. exact IH.
Qed.

Lemma freeHashTable_Some (ht : HashTable) :
  Z.of_nat (length (table ht)) = size ht ->
  freeHashTable (Some ht)
  = map FreeNode (concat (table ht)) ++ [FreeTable; FreeHashTable; OutFreed].
Proof.
  intros Hlen. unfold freeHashTable.
  pose proof (free_loop_concat ht (Z.to_nat (size ht)) 0) as Hf.
  change (Z.of_nat 0) with 0 in Hf. rewrite drop_0 in Hf.
  rewrite Hf by (cbn; lia). reflexivity.
Qed.

(** X13: [freeHashTable] frees every stored entry exactly once, bucket by
    bucket and each chain from its head, then the bucket array, then the
    table, and only then reports; on a [NULL] table it does nothing. *)
Theorem freeHashTable_frees_all (ht : HashTable) :
  Z.of_nat (length (table ht)) = size ht ->
  freeHashTable (Some ht)
  = map FreeNode (concat (table ht)) ++ [FreeTable; FreeHashTable; OutFreed]
  /\ freed_nodes (freeHashTable (Some ht)) = concat (table ht)
  /\ freeHashTable None = [].
Proof.
  intros Hlen.
  assert (H : freeHashTable (Some ht)
              = map FreeNode (concat (table ht))
                ++ [FreeTable; FreeHashTable; OutFreed]).
  { apply freeHashTable_Some. exact Hlen. }
  split; [exact H|]. split; [|reflexivity].
  rewrite H, freed_nodes_map. cbn. apply app_nil_r.
Qed.

(** * Properties of the input functions *)

Lemma byte_eqb_spec (c d : byte) : reflect (c = d) (Byte.eqb c d).
Proof.
  destruct (Byte.eqb c d) eqn:E; constructor.
  - apply Byte.byte_dec_bl. exact E.
  - apply Byte.eqb_false. exact E.
Qed.

(** X14: [clearInputBuffer] discards the rest of the current line with its
    newline and nothing after it; without a newline it discards all that is
    left of the input. *)
Theorem clearInputBuffer_skips_line (line rest : list byte) :
  ~ In newline line ->
  clearInputBuffer (line ++ newline :: rest) = rest
  /\ clearInputBuffer line = [].
Proof.
  intros Hn. induction line as [|c line IH]; [split; reflexivity|].
  cbn [app clearInputBuffer].
  destruct (byte_eqb_spec c newline) as [-> | Hc].
  - exfalso. apply Hn. left. reflexivity.
  - apply IH. intros H. apply Hn. right. exact H.
Qed.

Lemma fgets_read_split (room : nat) (stdin : list byte) :
  stdin = fst (fgets_read room stdin) ++ snd (fgets_read room stdin)
  /\ (length (fst (fgets_read room stdin)) <= room)%nat.
Proof.
  revert stdin. induction room as [|room IH]; intros stdin;
    [split; reflexivity|].
  destruct stdin as [|c rest]; cbn [fgets_read]; [split; cbn; [reflexivity|lia]|].
  destruct (Byte.eqb c newline); [split; cbn; [reflexivity|lia]|].
  destruct (IH rest) as [Hs Hl].
  destruct (fgets_read room rest) as [read rest']. cbn [fst snd length app] in *.
  split; [f_equal; exact Hs | lia].
Qed.

Lemma fgets_read_line (room : nat) (line rest : list byte) :
  ~ In newline line ->
  (length line < room)%nat ->
  fgets_read room (line ++ newline :: rest) = (line ++ [newline], rest).
Proof.
  revert room. induction line as [|c line IH]; intros room Hn Hl.
  - destruct room; [cbn in Hl; lia|]. reflexivity.
  - destruct room as [|room]; [cbn in Hl; lia|]. cbn [app fgets_read].
    destruct (byte_eqb_spec c newline) as [-> | Hc];
      [exfalso; apply Hn; left; reflexivity|].
    rewrite IH; [reflexivity | | cbn in Hl; lia].
    intros H. apply Hn. right. exact H.
Qed.

Lemma fgets_read_chunk (chunk rest : list byte) :
  ~ In newline chunk ->
  fgets_read (length chunk) (chunk ++ rest) = (chunk, rest).
Proof.
  intros Hn. induction chunk as [|c chunk IH]; [reflexivity|].
  cbn [length app fgets_read].
  destruct (byte_eqb_spec c newline) as [-> | Hc];
    [exfalso; apply Hn; left; reflexivity|].
  rewrite IH; [reflexivity|]. intros H. apply Hn. right. exact H.
Qed.

Lemma fgets_read_eof (room : nat) (line : list byte) :
  ~ In newline line ->
  (length line <= room)%nat ->
  fgets_read room line = (line, []).
Proof.
  revert room. induction line as [|c line IH]; intros room Hn Hl.
  - destruct room; reflexivity.
  - destruct room as [|room]; [cbn in Hl; lia|]. cbn [fgets_read].
    destruct (byte_eqb_spec c newline) as [-> | Hc];
      [exfalso; apply Hn; left; reflexivity|].
    rewrite IH; [reflexivity | | cbn in Hl; lia].
    intros H. apply Hn. right. exact H.
Qed.

Lemma c_str_length (bytes : list byte) :
  (length (c_str bytes) <= length bytes)%nat /\ ~ In x00 (c_str bytes).
Proof.
  induction bytes as [|c bytes [IHl IHn]]; cbn [c_str]; [cbn; split; [lia|tauto]|].
  destruct (byte_eqb_spec c x00) as [-> | Hc]; cbn; [split; [lia|tauto]|].
  split; [lia|]. intros [H | H]; [congruence | exact (IHn H)].
Qed.

Lemma c_str_id (bytes : list byte) : ~ In x00 bytes -> c_str bytes = bytes.
Proof.
  induction bytes as [|c bytes IH]; intros Hn; [reflexivity|].
  cbn [c_str]. destruct (byte_eqb_spec c x00) as [-> | Hc];
    [exfalso; apply Hn; left; reflexivity|].
  rewrite IH; [reflexivity|]. intros H. apply Hn. right. exact H.
Qed.

Lemma strip_newline_spec (s : cstring) :
  (length (take (strcspn s [newline]) s) <= length s)%nat
  /\ ~ In newline (take (strcspn s [newline]) s)
  /\ (forall b : byte, ~ In b s -> ~ In b (take (strcspn s [newline]) s)).
Proof.
  induction s as [|c s (IHl & IHn & IHb)]; cbn [strcspn existsb];
    [cbn; split; [lia | split; [tauto | intros; tauto]]|].
  destruct (byte_eqb_spec c newline) as [-> | Hc]; cbn [orb take length].
  - split; [lia|]. split; [cbn; tauto | intros b _; cbn; tauto].
  - split; [lia|]. split.
    + intros [H | H]; [congruence | exact (IHn H)].
    + intros b Hb [H | H]; [apply Hb; left; exact H|].
      apply (IHb b); [|exact H]. intros H'. apply Hb. right. exact H'.
Qed.

Lemma strip_newline_line (line rest : cstring) :
  ~ In newline line ->
  take (strcspn (line ++ newline :: rest) [newline]) (line ++ newline :: rest)
  = line
  /\ take (strcspn line [newline]) line = line.
Proof.
  intros Hn. induction line as [|c line IH]; [split; reflexivity|].
  cbn [app strcspn existsb].
  destruct (byte_eqb_spec c newline) as [-> | Hc];
    [exfalso; apply Hn; left; reflexivity|].
  cbn [orb take]. destruct IH as [IH1 IH2];
    [intros H; apply Hn; right; exact H|].
  rewrite IH1, IH2. split; reflexivity.
Qed.

Lemma fgets_strip_spec (n : nat) (buf : cstring) (stdin : list byte) :
  (length buf < n)%nat ->
  (length (fst (fgets_strip n buf stdin)) < n)%nat
  /\ ~ In newline (fst (fgets_strip n buf stdin))
  /\ (~ In x00 buf -> ~ In x00 (fst (fgets_strip n buf stdin))).
Proof.
  intros Hbuf. unfold fgets_strip.
  destruct (fgets_read_split (n - 1) stdin) as [Hs Hl].
  destruct (fgets_read (n - 1) stdin) as [read rest]. cbn [fst snd] in *.
  set (buf' := match read with [] => buf | _ :: _ => c_str read end).
  assert (Hb' : (length buf' < n)%nat
                /\ (~ In x00 buf -> ~ In x00 buf')).
  { unfold buf'. destruct read as [|c read]; [tauto|].
    destruct (c_str_length (c :: read)) as [H1 H2]. split; [lia | tauto]. }
  destruct (strip_newline_spec buf') as (H1 & H2 & H3).
  split; [lia|]. split; [exact H2|].
  intros H0. apply H3. apply Hb'. exact H0.
Qed.

(** X15: whatever the input, the string the [fgets] and [strcspn] pair
    leaves in a buffer of [n] bytes fits the buffer with its terminator and
    holds no newline (and no NUL if the buffer held none); at most [n - 1]
    bytes were taken from the input, and what is left follows them. *)
Theorem fgets_strip_fits (n : nat) (buf : cstring) (stdin : list byte) :
  (length buf < n)%nat ->
  (length (fst (fgets_strip n buf stdin)) < n)%nat
  /\ ~ In newline (fst (fgets_strip n buf stdin))
  /\ (~ In x00 buf -> ~ In x00 (fst (fgets_strip n buf stdin)))
  /\ exists taken : list byte,
       stdin = taken ++ snd (fgets_strip n buf stdin)
       /\ (length taken <= n - 1)%nat.
Proof.
  intros Hbuf.
  destruct (fgets_strip_spec n buf stdin Hbuf) as (Hlen & Hnl & Hnul).
  split; [exact Hlen|]. split; [exact Hnl|]. split; [exact Hnul|].
  unfold fgets_strip.
  destruct (fgets_read_split (n - 1) stdin) as [Hs Hl].
  destruct (fgets_read (n - 1) stdin) as [read rest]. cbn [fst snd] in *.
  exists read. split; assumption.
Qed.

Lemma fgets_strip_whole_line (n : nat) (buf line rest : list byte) :
  ~ In newline line ->
  ~ In x00 line ->
  (length line + 2 <= n)%nat ->
  fgets_strip n buf (line ++ newline :: rest) = (line, rest).
Proof.
  intros Hn H0 Hlen.
  unfold fgets_strip. rewrite fgets_read_line by (assumption || lia).
  assert (Hr : c_str (line ++ [newline]) = line ++ [newline]).
  { apply c_str_id. intros H. apply in_app_or in H.
    destruct H as [H | [H | []]]; [exact (H0 H) | discriminate]. }
  destruct (line ++ [newline]) as [|c l] eqn:E;
    [destruct line; discriminate|].
  rewrite Hr, <- E. f_equal.
  apply (strip_newline_line line []). exact Hn.
Qed.

Lemma fgets_strip_chunk (n : nat) (buf chunk rest : list byte) :
  ~ In newline chunk ->
  ~ In x00 chunk ->
  chunk <> [] ->
  length chunk = (n - 1)%nat ->
  fgets_strip n buf (chunk ++ rest) = (chunk, rest).
Proof.
  intros Hn H0 Hne Hlen. unfold fgets_strip.
  rewrite <- Hlen, fgets_read_chunk by exact Hn.
  destruct chunk as [|c l]; [congruence|].
  rewrite (c_str_id (c :: l) H0). f_equal.
  apply (strip_newline_line (c :: l) []). exact Hn.
Qed.

(** X16: a line shorter than the buffer, free of NUL and ended by a newline,
    is read whole: the buffer holds the line without the newline and the
    input continues after the newline.  A last line that the end of the
    input cuts off is read the same way, and if the input is already at its
    end the buffer keeps the string it held. *)
Theorem fgets_strip_line (n : nat) (buf line rest : list byte) :
  ~ In newline line ->
  ~ In x00 line ->
  (length line + 2 <= n)%nat ->
  fgets_strip n buf (line ++ newline :: rest) = (line, rest)
  /\ (line <> [] -> fgets_strip n buf line = (line, []))
  /\ (~ In newline buf -> fgets_strip n buf [] = (buf, [])).
Proof.
  intros Hn H0 Hlen. split; [|split].
  - apply fgets_strip_whole_line; assumption.
  - intros Hne. unfold fgets_strip. rewrite fgets_read_eof by (assumption || lia).
    destruct line as [|c l]; [congruence|].
    rewrite (c_str_id (c :: l) H0). f_equal.
    apply (strip_newline_line (c :: l) []). exact Hn.
  - intros Hb. unfold fgets_strip.
    destruct (n - 1)%nat; cbn [fgets_read]; f_equal;
      apply (strip_newline_line buf []); exact Hb.
Qed.

(** X17: when a line does not fit, having at least [n - 1] bytes in front
    of its newline, the buffer takes its first [n - 1] bytes and the rest of
    the line, newline included, stays in the input for the next read. *)
Theorem fgets_strip_overlong (n : nat) (buf line rest : list byte) :
  ~ In newline line ->
  ~ In x00 line ->
  (1 < n)%nat ->
  (n - 1 <= length line)%nat ->
  fgets_strip n buf (line ++ newline :: rest)
  = (take (n - 1) line, drop (n - 1) line ++ newline :: rest).
Proof.
  intros Hn H0 Hbig Hlen.
  rewrite <- (take_drop (n - 1) line) at 1. rewrite <- app_assoc.
  apply fgets_strip_chunk.
  - intros H. apply Hn. rewrite <- (take_drop (n - 1) line).
    apply in_or_app. left. exact H.
  - intros H. apply H0. rewrite <- (take_drop (n - 1) line).
    apply in_or_app. left. exact H.
  - intros E. apply (f_equal length) in E. rewrite length_take in E.
    cbn in E. lia.
  - rewrite length_take. lia.
Qed.

(** * Properties of [main] *)

Section Main.

Variable scanf_d : list byte -> option Z * list byte.
Variable malloc_ok : nat -> bool.

Lemma search_inserted (ht : HashTable) (name phone : cstring) :
  wf ht ->
  (length name < MAX_NAME_LEN)%nat ->
  (length phone < MAX_PHONE_LEN)%nat ->
  searchContact (fst (insertContact true ht name phone)) name
  = Some {| ContactNode.name := name; ContactNode.phone := phone |}.
Proof.
  intros Hwf Hn Hp. unfold searchContact.
  rewrite insertContact_size, insertContact_bucket by exact Hwf.
  rewrite stored_fits by assumption. apply search_loop_head. reflexivity.
Qed.

Lemma main_inv_start (ht0 : HashTable) (name0 phone0 : cstring)
    (stdin : list byte) :
  createHashTable true true TABLE_SIZE = Some ht0 ->
  (length name0 < MAX_NAME_LEN)%nat ->
  (length phone0 < MAX_PHONE_LEN)%nat ->
  main_inv {| m_stdin := stdin; m_phonebook := ht0;
              m_name := name0; m_phone := phone0; m_mallocs := O |}.
Proof.
  intros Hc Hn Hp. unfold main_inv; cbn [m_phonebook m_name m_phone].
  split; [eapply wf_create; [|exact Hc]; unfold TABLE_SIZE, INT_MAX; lia|].
  split; [apply createHashTable_Some in Hc; subst ht0; reflexivity|].
  split; [eapply bucket_inv_create; exact Hc|].
  split; [eapply fields_fit_create; exact Hc|].
  split; assumption.
Qed.

Lemma main_inv_step (st : MainState) (op : Op) (in' : list byte)
    (name' phone' : cstring) (k : nat) :
  main_inv st ->
  op_fits op ->
  (length name' < MAX_NAME_LEN)%nat ->
  (length phone' < MAX_PHONE_LEN)%nat ->
  main_inv {| m_stdin := in'; m_phonebook := step (m_phonebook st) op;
              m_name := name'; m_phone := phone'; m_mallocs := k |}.
Proof.
  intros (Hwf & Hsz & Hinv & Hfit & _ & _) Hop Hn Hp.
  unfold main_inv; cbn [m_phonebook m_name m_phone].
  split; [apply step_wf; exact Hwf|].
  split.
  { rewrite <- Hsz. destruct op; cbn [step];
      [apply insertContact_size | apply deleteContact_size]. }
  split.
  { destruct op as [ok name phone | name]; cbn [step].
    - apply bucket_inv_insert; assumption.
    - apply bucket_inv_delete; exact Hinv. }
  split; [apply fields_fit_step; exact Hfit|].
  split; assumption.
Qed.

Lemma main_inv_buffers (st : MainState) (in' : list byte)
    (name' phone' : cstring) (k : nat) :
  main_inv st ->
  (length name' < MAX_NAME_LEN)%nat ->
  (length phone' < MAX_PHONE_LEN)%nat ->
  main_inv {| m_stdin := in'; m_phonebook := m_phonebook st;
              m_name := name'; m_phone := phone'; m_mallocs := k |}.
Proof.
  intros (Hwf & Hsz & Hinv & Hfit & _ & _) Hn Hp.
  unfold main_inv; cbn [m_phonebook m_name m_phone]. tauto.
Qed.

Lemma main_switch_inv (choice : Z) (in2 : list byte) (st st' : MainState)
    (out : list main_output) :
  main_inv st ->
  main_switch malloc_ok choice in2 st = (out, inl st') ->
  main_inv st'.
Proof.
  intros Hinv. pose proof Hinv as (_ & _ & _ & _ & Hnb & Hpb).
  unfold main_switch.
  pose proof (fgets_strip_spec MAX_NAME_LEN (m_name st) in2 Hnb) as (Hn & _).
  destruct (fgets_strip MAX_NAME_LEN (m_name st) in2) as [name in3].
  cbn [fst] in Hn.
  destruct (choice =? 1).
  { pose proof (fgets_strip_spec MAX_PHONE_LEN (m_phone st) in3 Hpb)
      as (Hp & _).
    destruct (fgets_strip MAX_PHONE_LEN (m_phone st) in3) as [phone in4].
    cbn [fst] in Hp.
    destruct (insertContact (malloc_ok (m_mallocs st)) (m_phonebook st)
                name phone) as [ht' out0] eqn:E.
    intros [= <- <-].
    replace ht' with (step (m_phonebook st)
                        (OpInsert (malloc_ok (m_mallocs st)) name phone))
      by (cbn [step]; rewrite E; reflexivity).
    apply main_inv_step; assumption. }
  destruct (choice =? 2).
  { intros [= <- <-]. apply main_inv_buffers; assumption. }
  destruct (choice =? 3).
  { destruct (deleteContact (m_phonebook st) name) as [ht' out0] eqn:E.
    intros [= <- <-].
    replace ht' with (step (m_phonebook st) (OpDelete name))
      by (cbn [step]; rewrite E; reflexivity).
    apply main_inv_step; [exact Hinv | exact I | assumption..]. }
  destruct (choice =? 4).
  { unfold displayContacts. destruct (display_loop _ _ _ _).
    intros [= <- <-]. apply main_inv_buffers; assumption. }
  destruct (choice =? 5); [discriminate|].
  intros [= <- <-]. apply main_inv_buffers; assumption.
Qed.

Lemma main_iteration_inv (st st' : MainState) (out : list main_output) :
  main_inv st ->
  main_iteration scanf_d malloc_ok st = (out, inl st') ->
  main_inv st'.
Proof.
  intros Hinv. unfold main_iteration.
  destruct (scanf_d (m_stdin st)) as [[choice|] in1].
  - apply main_switch_inv. exact Hinv.
  - intros [= <- <-]. pose proof Hinv as (_ & _ & _ & _ & Hnb & Hpb).
    apply main_inv_buffers; assumption.
Qed.

Lemma main_loop_inv (fuel : nat) (st st' : MainState)
    (out : list main_output) :
  main_inv st ->
  main_loop scanf_d malloc_ok fuel st = (out, inl st') ->
  main_inv st'.
Proof.
  revert st out. induction fuel as [|fuel IH]; intros st out Hinv;
    cbn [main_loop].
  - intros [= <- <-]. exact Hinv.
  - destruct (main_iteration scanf_d malloc_ok st) as [o1 [st1|status]] eqn:E;
      [|discriminate].
    pose proof (main_iteration_inv st st1 o1 Hinv E) as Hinv1.
    destruct (main_loop scanf_d malloc_ok fuel st1) as [o2 last] eqn:E2.
    intros [= <- ->]. exact (IH st1 o2 Hinv1 E2).
Qed.

(** X18: as long as [main] runs, whatever it reads and whether or not the
    allocations succeed, the phonebook has its 100 buckets, every entry is in
    the bucket of its name, the stored strings and the two input buffers are
    within their sizes, and every stored entry is found by a search for its
    name. *)
Theorem main_keeps_invariant (create_ok : bool * bool)
    (name0 phone0 : cstring) (fuel : nat) (stdin : list byte)
    (out : list main_output) (st : MainState) :
  (length name0 < MAX_NAME_LEN)%nat ->
  (length phone0 < MAX_PHONE_LEN)%nat ->
  main scanf_d malloc_ok create_ok name0 phone0 fuel stdin = (out, inl st) ->
  main_inv st
  /\ forall node : ContactNode,
       In node (concat (table (m_phonebook st))) ->
       exists found : ContactNode,
         searchContact (m_phonebook st) (ContactNode.name node) = Some found
         /\ ContactNode.name found = ContactNode.name node.
Proof.
  intros Hn Hp. unfold main.
  destruct create_ok as [[|] [|]]; cbn [fst snd]; try discriminate.
  destruct (createHashTable true true TABLE_SIZE) as [ht0|] eqn:Hc;
    [|discriminate].
  intros Hrun.
  assert (Hinv : main_inv st).
  { eapply main_loop_inv; [|exact Hrun].
    apply main_inv_start; assumption. }
  split; [exact Hinv|].
  intros node. apply entry_found. apply Hinv.
Qed.

(** X19: at the end of the input, where [scanf] converts nothing and takes
    nothing, the loop does not terminate: each turn prints the menu and the
    invalid-input notice and leaves the state as it is. *)
Theorem main_loops_at_end_of_input (fuel : nat) (st : MainState) :
  scanf_d [] = (None, []) ->
  m_stdin st = [] ->
  main_loop scanf_d malloc_ok fuel st
  = (concat (replicate fuel [OutMenu; OutInvalidInput]), inl st).
Proof.
  intros Hs Hin. induction fuel as [|fuel IH]; [reflexivity|].
  cbn [main_loop]. unfold main_iteration. rewrite Hin, Hs.
  cbn [clearInputBuffer].
  replace {| m_stdin := []; m_phonebook := m_phonebook st;
             m_name := m_name st; m_phone := m_phone st;
             m_mallocs := m_mallocs st |} with st
    by (destruct st; cbn in *; subst; reflexivity).
  rewrite IH. reflexivity.
Qed.

Lemma filter_map_length {A B : Type} (f : B -> bool) (g : A -> B)
    (h : A -> bool) (l : list A) :
  (forall a : A, f (g a) = h a) ->
  length (List.filter f (map g l)) = length (List.filter h l).
Proof.
  intros H. induction l as [|a l IH]; [reflexivity|].
  cbn [map List.filter]. rewrite H. destruct (h a); cbn [length]; lia.
Qed.

Lemma filter_none_length {A : Type} (h : A -> bool) (l : list A) :
  (forall a : A, In a l -> h a = false) ->
  length (List.filter h l) = 0%nat.
Proof.
  intros H. induction l as [|a l IH]; [reflexivity|].
  cbn [List.filter]. rewrite (H a) by (left; reflexivity).
  apply IH. intros b Hb. apply H. right. exact Hb.
Qed.

Lemma display_loop_quiet (ht : HashTable) (remaining : nat) (i : Z)
    (empty : bool) (o : output) :
  In o (snd (display_loop ht remaining i empty)) ->
  is_added o = false /\ is_deleted o = false.
Proof.
  revert i empty. induction remaining as [|r IH]; intros i empty;
    cbn [display_loop]; [intros []|].
  destruct (bucket ht i) as [|node chain] eqn:Hb; [apply IH|].
  specialize (IH (i + 1) false).
  destruct (display_loop ht r (i + 1) false) as [e out]. cbn [snd] in *.
  intros [<- | H]; [split; reflexivity|].
  apply in_app_or in H. destruct H as [H | H]; [|exact (IH H)].
  unfold print_chain in H. apply in_map_iff in H.
  destruct H as (n & <- & _). split; reflexivity.
Qed.

Lemma displayContacts_quiet (ht : HashTable) (o : output) :
  In o (snd (displayContacts ht)) ->
  is_added o = false /\ is_deleted o = false.
Proof.
  unfold displayContacts.
  pose proof (display_loop_quiet ht (Z.to_nat (size ht)) 0 true o) as H.
  destruct (display_loop ht (Z.to_nat (size ht)) 0 true) as [e out].
  cbn [snd] in *. intros [<- | Hin]; [split; reflexivity|].
  apply in_app_or in Hin. destruct Hin as [Hin | Hin]; [exact (H Hin)|].
  apply in_app_or in Hin. destruct Hin as [Hin | [<- | []]];
    [|split; reflexivity].
  destruct e; [|destruct Hin]. destruct Hin as [<- | []]. split; reflexivity.
Qed.

(** The nodes a turn allocates, releases and, at the exit, frees. *)
Lemma main_switch_count (choice : Z) (in2 : list byte) (st : MainState)
    (out : list main_output) (next : MainState + Z) :
  wf (m_phonebook st) ->
  main_switch malloc_ok choice in2 st = (out, next) ->
  match next with
  | inl st' =>
      wf (m_phonebook st')
      /\ (entry_count (m_phonebook st')
          + length (List.filter main_deleted out)
          = entry_count (m_phonebook st)
            + length (List.filter main_added out))%nat
      /\ length (List.filter main_freed out) = 0%nat
  | inr status =>
      status = 0
      /\ length (List.filter main_freed out) = entry_count (m_phonebook st)
      /\ length (List.filter main_added out) = 0%nat
      /\ length (List.filter main_deleted out) = 0%nat
  end.
Proof.
  intros Hwf. unfold main_switch.
  destruct (fgets_strip MAX_NAME_LEN (m_name st) in2) as [name in3].
  assert (Hop : forall (op : Op) (ht' : HashTable) (out0 : list output),
             step_out (m_phonebook st) op = (ht', out0) ->
             wf ht'
             /\ (entry_count ht'
                 + length (List.filter main_deleted (map OutCore out0))
                 = entry_count (m_phonebook st)
                   + length (List.filter main_added (map OutCore out0)))%nat
             /\ length (List.filter main_freed (map OutCore out0)) = 0%nat).
  { intros op ht' out0 E.
    pose proof (step_out_count (m_phonebook st) op Hwf) as Hc.
    pose proof (step_out_step (m_phonebook st) op) as Hs.
    rewrite E in Hc, Hs. cbn [fst snd] in Hc, Hs.
    split; [rewrite Hs; apply step_wf; exact Hwf|].
    rewrite (filter_map_length main_deleted OutCore is_deleted)
      by reflexivity.
    rewrite (filter_map_length main_added OutCore is_added) by reflexivity.
    split; [exact Hc|].
    apply filter_none_length. intros a Ha. apply in_map_iff in Ha.
    destruct Ha as (o & <- & _). reflexivity. }
  destruct (choice =? 1).
  { destruct (fgets_strip MAX_PHONE_LEN (m_phone st) in3) as [phone in4].
    destruct (insertContact (malloc_ok (m_mallocs st)) (m_phonebook st)
                name phone) as [ht' out0] eqn:E.
    intros [= <- <-]. cbn [m_phonebook].
    exact (Hop (OpInsert (malloc_ok (m_mallocs st)) name phone) ht' out0 E). }
  destruct (choice =? 2).
  { intros [= <- <-]. cbn [m_phonebook].
    split; [exact Hwf|].
    destruct (searchContact (m_phonebook st) name); cbn; split; lia. }
  destruct (choice =? 3).
  { destruct (deleteContact (m_phonebook st) name) as [ht' out0] eqn:E.
    intros [= <- <-]. cbn [m_phonebook].
    exact (Hop (OpDelete name) ht' out0 E). }
  destruct (choice =? 4).
  { pose proof (displayContacts_quiet (m_phonebook st)) as Hq.
    assert (Hsame : fst (displayContacts (m_phonebook st)) = m_phonebook st).
    { unfold displayContacts. destruct (display_loop _ _ _ _). reflexivity. }
    destruct (displayContacts (m_phonebook st)) as [ht' out0].
    cbn [fst snd] in *. subst ht'.
    intros [= <- <-]. cbn [m_phonebook List.filter main_added main_deleted
                             main_freed].
    split; [exact Hwf|].
    rewrite (filter_map_length main_deleted OutCore is_deleted)
      by reflexivity.
    rewrite (filter_map_length main_added OutCore is_added) by reflexivity.
    rewrite !filter_none_length; [split; reflexivity | | |].
    - intros a Ha. apply in_map_iff in Ha.
      destruct Ha as (o & <- & _). reflexivity.
    - intros a Ha. apply (Hq a Ha).
    - intros a Ha. apply (Hq a Ha). }
  destruct (choice =? 5).
  { intros [= <- <-]. split; [reflexivity|].
    pose proof (freeHashTable_Some (m_phonebook st) (proj2 Hwf)) as Hfree.
    unfold freeHashTable in Hfree. rewrite Hfree.
    cbn [app List.filter main_freed main_added main_deleted].
    rewrite map_app, !List.filter_app, !List.length_app, map_map.
    cbn [map List.filter main_freed main_added main_deleted length].
    rewrite (filter_map_length main_freed _ (fun _ => true)) by reflexivity.
    rewrite (filter_map_length main_added _ (fun _ => false)) by reflexivity.
    rewrite (filter_map_length main_deleted _ (fun _ => false))
      by reflexivity.
    rewrite !(filter_none_length (fun _ => false)) by reflexivity.
    unfold entry_count.
    assert (Hall : forall l : list ContactNode,
               List.filter (fun _ => true) l = l).
    { intros l. induction l as [|a l IH]; [reflexivity|].
      cbn. f_equal. exact IH. }
    rewrite Hall. split; [lia | split; reflexivity]. }
  intros [= <- <-]. cbn. split; [exact Hwf | split; lia].
Qed.

Lemma main_iteration_count (st : MainState) (out : list main_output)
    (next : MainState + Z) :
  wf (m_phonebook st) ->
  main_iteration scanf_d malloc_ok st = (out, next) ->
  match next with
  | inl st' =>
      wf (m_phonebook st')
      /\ (entry_count (m_phonebook st')
          + length (List.filter main_deleted out)
          = entry_count (m_phonebook st)
            + length (List.filter main_added out))%nat
      /\ length (List.filter main_freed out) = 0%nat
  | inr status =>
      status = 0
      /\ length (List.filter main_freed out) = entry_count (m_phonebook st)
      /\ length (List.filter main_added out) = 0%nat
      /\ length (List.filter main_deleted out) = 0%nat
  end.
Proof.
  intros Hwf. unfold main_iteration.
  destruct (scanf_d (m_stdin st)) as [[choice|] in1].
  - apply main_switch_count. exact Hwf.
  - intros [= <- <-]. cbn. split; [exact Hwf | split; lia].
Qed.

Lemma main_loop_count (fuel : nat) (st : MainState)
    (out : list main_output) (status : Z) :
  wf (m_phonebook st) ->
  main_loop scanf_d malloc_ok fuel st = (out, inr status) ->
  status = 0
  /\ (length (List.filter main_freed out)
      + length (List.filter main_deleted out)
      = entry_count (m_phonebook st)
        + length (List.filter main_added out))%nat.
Proof.
  revert st out. induction fuel as [|fuel IH]; intros st out Hwf;
    cbn [main_loop]; [discriminate|].
  destruct (main_iteration scanf_d malloc_ok st) as [o1 next] eqn:E.
  pose proof (main_iteration_count st o1 next Hwf E) as Hc.
  destruct next as [st1 | status1].
  - destruct Hc as (Hwf1 & Hc1 & Hf1).
    destruct (main_loop scanf_d malloc_ok fuel st1) as [o2 last] eqn:E2.
    intros [= <- ->].
    destruct (IH st1 o2 Hwf1 E2) as [Hs Hc2].
    split; [exact Hs|].
    rewrite !List.filter_app, !List.length_app. lia.
  - intros [= <- <-]. destruct Hc as (Hs & Hf & Ha & Hd).
    split; [exact Hs | lia].
Qed.

(** X20: [main] returns either 1, at once and without reading, because an
    allocation of the table failed, or 0; when it returns 0 every node that a
    successful add allocated has been freed exactly once, by a successful
    delete or by the teardown at the exit. *)
Theorem main_frees_every_node (create_ok : bool * bool)
    (name0 phone0 : cstring) (fuel : nat) (stdin : list byte)
    (out : list main_output) (status : Z) :
  main scanf_d malloc_ok create_ok name0 phone0 fuel stdin
  = (out, inr status) ->
  (create_ok <> (true, true) /\ status = EXIT_FAILURE
   /\ out = [OutCreateFailed])
  \/ (create_ok = (true, true) /\ status = 0
      /\ (length (List.filter main_freed out)
          + length (List.filter main_deleted out)
          = length (List.filter main_added out))%nat).
Proof.
  unfold main.
  destruct (createHashTable (fst create_ok) (snd create_ok) TABLE_SIZE)
    as [ht0|] eqn:Hc.
  - intros Hrun. right.
    assert (Hok : create_ok = (true, true)).
    { destruct create_ok as [[|] [|]]; cbn in Hc; try discriminate.
      reflexivity. }
    subst create_ok. cbn [fst snd] in Hc.
    pose proof (entry_count_create _ _ Hc) as H0.
    assert (Hwf : wf ht0)
      by (eapply wf_create; [|exact Hc]; unfold TABLE_SIZE, INT_MAX; lia).
    destruct (main_loop_count fuel
                {| m_stdin := stdin; m_phonebook := ht0;
                   m_name := name0; m_phone := phone0; m_mallocs := O |}
                out status Hwf Hrun) as [Hs Hcount].
    cbn [m_phonebook] in Hcount. rewrite H0 in Hcount.
    split; [reflexivity|]. split; [exact Hs | exact Hcount].
  - intros [= <- <-]. left. split; [|split; reflexivity].
    intros ->. cbn in Hc. discriminate.
Qed.

(** X21: typed at the menu, an add of a name of at most 48 bytes with a phone
    of at most 13 bytes, each on its line, followed by a search for that
    name, prints the success of the add and then the contact as found, with
    the phone as typed. *)
Theorem main_add_then_search (st : MainState)
    (in1 in2 in3 in4 : list byte) (name phone : cstring) :
  wf (m_phonebook st) ->
  ~ In newline name -> ~ In x00 name ->
  (length name + 2 <= MAX_NAME_LEN)%nat ->
  ~ In newline phone -> ~ In x00 phone ->
  (length phone + 2 <= MAX_PHONE_LEN)%nat ->
  scanf_d (m_stdin st) = (Some 1, in1) ->
  clearInputBuffer in1 = name ++ newline :: phone ++ newline :: in2 ->
  malloc_ok (m_mallocs st) = true ->
  scanf_d in2 = (Some 2, in3) ->
  clearInputBuffer in3 = name ++ newline :: in4 ->
  main_loop scanf_d malloc_ok 2 st
  = ([OutMenu; OutPromptName; OutPromptPhone;
      OutCore (OutAdded name phone);
      OutMenu; OutPromptSearch; OutFound name phone],
     inl {| m_stdin := in4;
            m_phonebook := fst (insertContact true (m_phonebook st) name phone);
            m_name := name; m_phone := phone;
            m_mallocs := S (m_mallocs st) |}).
Proof.
  intros Hwf Hn1 Hn0 Hnl Hp1 Hp0 Hpl Hs1 Hc1 Hm Hs2 Hc2.
  cbn [main_loop]. unfold main_iteration at 1. rewrite Hs1, Hc1.
  unfold main_switch at 1. cbn [Z.eqb Pos.eqb].
  rewrite fgets_strip_whole_line by assumption.
  rewrite fgets_strip_whole_line by assumption.
  rewrite Hm, insertContact_ok.
  unfold main_iteration. cbn [m_stdin]. rewrite Hs2, Hc2.
  unfold main_switch. cbn [Z.eqb Pos.eqb m_name m_phonebook m_phone m_mallocs].
  rewrite fgets_strip_whole_line by assumption.
  assert (Hfound : searchContact
                     (set_bucket (m_phonebook st)
                        (hashFunction name (size (m_phonebook st)))
                        (stored name phone
                           :: bucket (m_phonebook st)
                                (hashFunction name (size (m_phonebook st)))))
                     name
                   = Some {| ContactNode.name := name;
                             ContactNode.phone := phone |}).
  { apply (search_inserted (m_phonebook st) name phone Hwf);
      unfold MAX_NAME_LEN, MAX_PHONE_LEN in *; lia. }
  rewrite Hfound. reflexivity.
Qed.

(** X22: when the name line typed for an add has 49 bytes or more, the name
    is its first 49 bytes and no phone is asked from a line of its own: the
    phone is what is left of the name line (empty for a line of exactly 49
    bytes), and the input goes on after that line. *)
Theorem main_add_long_name_line (st : MainState) (in1 rest : list byte)
    (chunk tail : cstring) :
  ~ In newline chunk -> ~ In x00 chunk ->
  length chunk = (MAX_NAME_LEN - 1)%nat ->
  ~ In newline tail -> ~ In x00 tail ->
  (length tail + 2 <= MAX_PHONE_LEN)%nat ->
  scanf_d (m_stdin st) = (Some 1, in1) ->
  clearInputBuffer in1 = chunk ++ tail ++ newline :: rest ->
  main_iteration scanf_d malloc_ok st
  = ([OutMenu; OutPromptName; OutPromptPhone]
       ++ map OutCore
            (snd (insertContact (malloc_ok (m_mallocs st)) (m_phonebook st)
                    chunk tail)),
     inl {| m_stdin := rest;
            m_phonebook :=
              fst (insertContact (malloc_ok (m_mallocs st)) (m_phonebook st)
                     chunk tail);
            m_name := chunk; m_phone := tail;
            m_mallocs := S (m_mallocs st) |}).
Proof.
  intros Hc1 Hc0 Hcl Ht1 Ht0 Htl Hs Hin.
  unfold main_iteration. rewrite Hs, Hin.
  unfold main_switch. cbn [Z.eqb Pos.eqb].
  rewrite fgets_strip_chunk; try assumption.
  - rewrite fgets_strip_whole_line by assumption.
    destruct (insertContact _ _ chunk tail). reflexivity.
  - intros ->. cbn in Hcl. discriminate.
Qed.

Lemma fgets_strip_eof (n : nat) (buf : cstring) :
  ~ In newline buf -> fgets_strip n buf [] = (buf, []).
Proof.
  intros Hb. unfold fgets_strip.
  destruct (n - 1)%nat; cbn [fgets_read]; f_equal;
    apply (strip_newline_line buf []); exact Hb.
Qed.

(** X23: when the input ends right after the choice of an add, nothing is
    read for the name or for the phone, and the contact inserted is the one
    the two buffers still hold from the commands before. *)
Theorem main_add_at_end_of_input (st : MainState) (in1 : list byte) :
  ~ In newline (m_name st) ->
  ~ In newline (m_phone st) ->
  scanf_d (m_stdin st) = (Some 1, in1) ->
  clearInputBuffer in1 = [] ->
  main_iteration scanf_d malloc_ok st
  = ([OutMenu; OutPromptName; OutPromptPhone]
       ++ map OutCore
            (snd (insertContact (malloc_ok (m_mallocs st)) (m_phonebook st)
                    (m_name st) (m_phone st))),
     inl {| m_stdin := [];
            m_phonebook :=
              fst (insertContact (malloc_ok (m_mallocs st)) (m_phonebook st)
                     (m_name st) (m_phone st));
            m_name := m_name st; m_phone := m_phone st;
            m_mallocs := S (m_mallocs st) |}).
Proof.
  intros Hn Hp Hs Hin. unfold main_iteration. rewrite Hs, Hin.
  unfold main_switch. cbn [Z.eqb Pos.eqb].
  rewrite !fgets_strip_eof by assumption.
  destruct (insertContact _ _ (m_name st) (m_phone st)). reflexivity.
Qed.

End Main.

End Phonebook.

(** * Concrete runs *)

(** The runs are on x86-64 System V, on the table of 100 empty buckets that
    [main] creates. *)

(** The scenario of the specification: insert Alice and Bob, find Alice,
    delete her, miss her, and list Bob alone. *)
Example alice_bob_scenario :
  let ht2 := run x86_64_sysv phonebook0
               [OpInsert true alice phone123; OpInsert true bob phone456] in
  let ht3 := fst (deleteContact x86_64_sysv ht2 alice) in
  createHashTable true true TABLE_SIZE = Some phonebook0
  /\ ContactNode.phone <$> searchContact x86_64_sysv ht2 alice = Some phone123
  /\ snd (deleteContact x86_64_sysv ht2 alice) = [OutDeleted alice]
  /\ searchContact x86_64_sysv ht3 alice = None
  /\ visited 0 (snd (displayContacts ht3))
     = [(32, {| ContactNode.name := bob; ContactNode.phone := phone456 |})].
Proof. cbv zeta. repeat split; vm_compute; reflexivity. Qed.

(** A table without entries is displayed as empty. *)
Example display_empty :
  snd (displayContacts phonebook0) = [OutHeader; OutEmpty; OutFooter].
Proof. vm_compute. reflexivity. Qed.

Lemma hashFunction_deterministic_in_range_witness :
  0 <= hashFunction x86_64_sysv alice 100 < 100.
Proof.
  apply (hashFunction_deterministic_in_range x86_64_sysv alice 100).
  unfold INT_MAX. lia.
Defined.

Lemma hashFunction_is_djb2_witness :
  hashFunction x86_64_sysv alice 100 = djb2_ref byte_unsigned 64 alice 100.
Proof.
  refine (proj2 (hashFunction_is_djb2 x86_64_sysv alice 100 _) _).
  - unfold INT_MAX. lia.
  - right. repeat (apply List.Forall_cons; [vm_compute; reflexivity|]).
    apply List.Forall_nil.
Defined.

(** C8 as stated fails where plain [char] is signed: the one-byte name 0xE9
    hashes to bucket 50 of 100, the reference hash over unsigned bytes is 6. *)
Lemma hashFunction_not_unsigned_djb2 :
  hashFunction x86_64_sysv [xe9] 100 = 50
  /\ djb2_ref byte_unsigned (ULONG_BITS x86_64_sysv) [xe9] 100 = 6
  /\ hashFunction x86_64_sysv [xe9] 100
     <> djb2_ref byte_unsigned (ULONG_BITS x86_64_sysv) [xe9] 100.
Proof.
  split; [reflexivity|]. split; [reflexivity|].
  vm_compute. discriminate.
Qed.

Lemma insert_then_search_witness :
  exists node : ContactNode,
    searchContact x86_64_sysv
      (fst (insertContact x86_64_sysv true phonebook0 alice phone123)) alice
    = Some node
    /\ ContactNode.phone node = strncpy_nul phone123 (MAX_PHONE_LEN - 1)
    /\ ((length phone123 < MAX_PHONE_LEN)%nat ->
        ContactNode.phone node = phone123).
Proof.
  apply (insert_then_search x86_64_sysv phonebook0 alice phone123).
  - wf_by_computation.
  - vm_compute. lia.
Defined.

(** C1 as stated fails for a name of 50 bytes, which is stored cut to 49
    bytes and so is not found again, and for a phone of 15 bytes, which comes
    back cut to 14 bytes. *)
Lemma insert_then_search_overlong :
  searchContact x86_64_sysv
    (fst (insertContact x86_64_sysv true phonebook0 name50 phone123)) name50
  = None
  /\ ContactNode.phone
       <$> searchContact x86_64_sysv
             (fst (insertContact x86_64_sysv true phonebook0 alice phone15))
             alice
     = Some (take 14 phone15)
  /\ take 14 phone15 <> phone15.
Proof.
  split; [vm_compute; reflexivity|]. split; [vm_compute; reflexivity|].
  vm_compute. discriminate.
Qed.

Lemma duplicate_names_newest_first_witness :
  ContactNode.phone
    <$> searchContact x86_64_sysv
          (fst (insertContact x86_64_sysv true
                  (fst (insertContact x86_64_sysv true phonebook0
                          alice phone123))
                  alice phone456))
          alice
  = Some phone456.
Proof.
  pose proof (duplicate_names_newest_first x86_64_sysv phonebook0
                alice phone123 phone456) as H.
  cbv zeta in H. destruct H as (H & _).
  - wf_by_computation.
  - vm_compute. lia.
  - vm_compute. lia.
  - vm_compute. lia.
  - exact H.
Defined.

(** C2 as stated fails for a name of 50 bytes: after the two inserts a
    search with that name finds neither entry; and for a phone of 15 bytes
    the search returns its first 14 bytes, not the phone inserted last. *)
Lemma duplicate_names_overlong :
  searchContact x86_64_sysv
    (fst (insertContact x86_64_sysv true
            (fst (insertContact x86_64_sysv true phonebook0 name50 phone123))
            name50 phone456))
    name50
  = None
  /\ ContactNode.phone
       <$> searchContact x86_64_sysv
             (fst (insertContact x86_64_sysv true
                     (fst (insertContact x86_64_sysv true phonebook0
                             alice phone123))
                     alice phone15))
             alice
     <> Some phone15.
Proof. split; [vm_compute; reflexivity | vm_compute; discriminate]. Qed.

Lemma bucket_invariant_reachable_witness :
  bucket_inv x86_64_sysv
    (run x86_64_sysv phonebook0
       [OpInsert true alice phone123; OpInsert true bob phone456;
        OpDelete alice]).
Proof.
  refine (proj1 (bucket_invariant_reachable x86_64_sysv 100 phonebook0
                   [OpInsert true alice phone123; OpInsert true bob phone456;
                    OpDelete alice] _ _ _)).
  - unfold INT_MAX. lia.
  - reflexivity.
  - repeat (apply List.Forall_cons; [vm_compute; first [lia | exact I]|]).
    apply List.Forall_nil.
Defined.

(** C3 as stated fails after the insert of a name of 50 bytes: the entry
    sits in bucket 83, where the full name hashes, and its stored name, the
    first 49 bytes, hashes to 46. *)
Lemma bucket_invariant_overlong :
  table (run x86_64_sysv phonebook0 [OpInsert true name50 phone123]) !! 83%nat
  = Some [stored name50 phone123]
  /\ hashFunction x86_64_sysv (ContactNode.name (stored name50 phone123)) 100
     = 46
  /\ ~ bucket_inv x86_64_sysv
        (run x86_64_sysv phonebook0 [OpInsert true name50 phone123]).
Proof.
  assert (Hl : table (run x86_64_sysv phonebook0
                        [OpInsert true name50 phone123]) !! 83%nat
               = Some [stored name50 phone123])
    by (vm_compute; reflexivity).
  split; [exact Hl|]. split; [vm_compute; reflexivity|].
  intros Hinv. specialize (Hinv 83%nat _ Hl).
  apply Forall_cons in Hinv. destruct Hinv as [H _].
  vm_compute in H. discriminate.
Qed.

Lemma delete_absent_is_noop_witness :
  deleteContact x86_64_sysv
    (run x86_64_sysv phonebook0
       [OpInsert true kim phone123; OpInsert true sue phone456]) carol
  = (run x86_64_sysv phonebook0
       [OpInsert true kim phone123; OpInsert true sue phone456],
     [OutNotFound carol]).
Proof.
  refine (proj1 (delete_absent_is_noop x86_64_sysv
                   (run x86_64_sysv phonebook0
                      [OpInsert true kim phone123; OpInsert true sue phone456])
                   carol _ _)).
  - wf_by_computation.
  - vm_compute.
    repeat (apply List.Forall_cons; [discriminate|]). apply List.Forall_nil.
Defined.

Lemma delete_removes_first_match_witness :
  (entry_count
     (fst (deleteContact x86_64_sysv
             (run x86_64_sysv phonebook0
                [OpInsert true alice phone123; OpInsert true alice phone456])
             alice)) + 1
   = entry_count
       (run x86_64_sysv phonebook0
          [OpInsert true alice phone123; OpInsert true alice phone456]))%nat.
Proof.
  pose proof (delete_removes_first_match x86_64_sysv
                (run x86_64_sysv phonebook0
                   [OpInsert true alice phone123; OpInsert true alice phone456])
                alice 2) as H.
  cbv zeta in H. destruct H as (_ & H & _).
  - wf_by_computation.
  - apply run_inv.
    + wf_by_computation.
    + apply (bucket_inv_create x86_64_sysv 100). reflexivity.
    + repeat (apply List.Forall_cons; [vm_compute; lia|]).
      apply List.Forall_nil.
  - vm_compute. reflexivity.
  - lia.
  - exact H.
Defined.

(** C5 as stated fails after the insert of a name of 50 bytes: the table
    stores one entry named by the first 49 bytes, in bucket 83, but a delete
    of that name walks bucket 46, reports not-found and removes nothing. *)
Lemma delete_misses_truncated_entry :
  matches (take 49 name50)
    (concat (table (run x86_64_sysv phonebook0
                      [OpInsert true name50 phone123])))
  = 1%nat
  /\ deleteContact x86_64_sysv
       (run x86_64_sysv phonebook0 [OpInsert true name50 phone123])
       (take 49 name50)
     = (run x86_64_sysv phonebook0 [OpInsert true name50 phone123],
        [OutNotFound (take 49 name50)])
  /\ entry_count
       (fst (deleteContact x86_64_sysv
               (run x86_64_sysv phonebook0 [OpInsert true name50 phone123])
               (take 49 name50)))
     = 1%nat.
Proof.
  split; [vm_compute; reflexivity|].
  split; vm_compute; reflexivity.
Qed.

Lemma display_visits_every_entry_once_witness :
  visited 0
    (snd (displayContacts
            (run x86_64_sysv phonebook0
               [OpInsert true alice phone123; OpInsert true bob phone456])))
  = entries
      (run x86_64_sysv phonebook0
         [OpInsert true alice phone123; OpInsert true bob phone456]).
Proof.
  pose proof (display_visits_every_entry_once x86_64_sysv
                (run x86_64_sysv phonebook0
                   [OpInsert true alice phone123; OpInsert true bob phone456]))
    as H.
  destruct H as (_ & H & _).
  - vm_compute. reflexivity.
  - exact H.
Defined.

Lemma insert_reports_arguments_witness :
  snd (insertContact x86_64_sysv true phonebook0 alice phone123)
  = [OutAdded alice phone123]
  /\ bucket (fst (insertContact x86_64_sysv true phonebook0 alice phone123))
            (hashFunction x86_64_sysv alice (size phonebook0))
     = stored alice phone123
       :: bucket phonebook0 (hashFunction x86_64_sysv alice (size phonebook0)).
Proof.
  pose proof (insert_reports_arguments x86_64_sysv phonebook0 alice phone123)
    as H.
  cbv zeta in H.
  destruct H as (Hout & _ & Hb & _); [wf_by_computation|].
  split; [exact Hout | exact Hb].
Defined.

(** C9 as stated fails for a name of 50 bytes: the success message carries
    the 50 bytes of the argument, the new entry holds the first 49. *)
Lemma insert_reports_untruncated_name :
  exists node : ContactNode,
    bucket (fst (insertContact x86_64_sysv true phonebook0 name50 phone123)) 83
    = [node]
    /\ snd (insertContact x86_64_sysv true phonebook0 name50 phone123)
       = [OutAdded name50 phone123]
    /\ ContactNode.name node = take 49 name50
    /\ snd (insertContact x86_64_sysv true phonebook0 name50 phone123)
       <> [OutAdded (ContactNode.name node) (ContactNode.phone node)].
Proof.
  exists (stored name50 phone123).
  split; [vm_compute; reflexivity|]. split; [reflexivity|].
  split; [reflexivity|]. vm_compute. discriminate.
Qed.

Lemma truncation_asymmetry_witness :
  searchContact x86_64_sysv
    (fst (insertContact x86_64_sysv true phonebook0 name50 phone123)) name50
  = None.
Proof.
  pose proof (truncation_asymmetry x86_64_sysv phonebook0 name50 phone123)
    as H.
  cbv zeta in H. destruct H as (H & _).
  - wf_by_computation.
  - vm_compute. repeat constructor.
  - vm_compute. lia.
  - exact H.
Defined.

(** C10 as stated fails on its last part: the name of 50 bytes is filed
    under bucket 83, its 49-byte prefix hashes to bucket 46, and a search
    with the prefix does not find the entry. *)
Lemma search_prefix_misses :
  hashFunction x86_64_sysv name50 100 = 83
  /\ hashFunction x86_64_sysv (take 49 name50) 100 = 46
  /\ bucket (fst (insertContact x86_64_sysv true phonebook0 name50 phone123)) 83
     = [stored name50 phone123]
  /\ searchContact x86_64_sysv
       (fst (insertContact x86_64_sysv true phonebook0 name50 phone123))
       (take 49 name50)
     = None.
Proof.
  split; [vm_compute; reflexivity|]. split; [vm_compute; reflexivity|].
  split; vm_compute; reflexivity.
Qed.

(** ** Concrete runs of the further properties *)

Ltac no_such_byte := cbn; intuition discriminate.

Lemma search_returns_first_match_witness :
  ContactNode.name {| ContactNode.name := kim; ContactNode.phone := phone123 |}
  = kim
  /\ exists pre post : list ContactNode,
       bucket (run x86_64_sysv phonebook0
                 [OpInsert true kim phone123; OpInsert true sue phone456])
              (hashFunction x86_64_sysv kim
                 (size (run x86_64_sysv phonebook0
                          [OpInsert true kim phone123;
                           OpInsert true sue phone456])))
       = pre ++ {| ContactNode.name := kim; ContactNode.phone := phone123 |}
              :: post
       /\ Forall (fun n => ContactNode.name n <> kim) pre.
Proof.
  refine (proj1 (search_returns_first_match x86_64_sysv
                   (run x86_64_sysv phonebook0
                      [OpInsert true kim phone123; OpInsert true sue phone456])
                   kim _)
                {| ContactNode.name := kim; ContactNode.phone := phone123 |} _).
  - wf_by_computation.
  - vm_compute. reflexivity.
Defined.

Lemma stored_entries_are_found_witness :
  exists found : ContactNode,
    searchContact x86_64_sysv
      (run x86_64_sysv phonebook0
         [OpInsert true alice phone123; OpInsert true bob phone456])
      (ContactNode.name (stored bob phone456))
    = Some found
    /\ ContactNode.name found = ContactNode.name (stored bob phone456).
Proof.
  refine (proj1 (stored_entries_are_found x86_64_sysv
                   (run x86_64_sysv phonebook0
                      [OpInsert true alice phone123;
                       OpInsert true bob phone456]) _ _)
                (stored bob phone456) _).
  - wf_by_computation.
  - apply run_inv.
    + wf_by_computation.
    + apply (bucket_inv_create x86_64_sysv 100). reflexivity.
    + repeat (apply List.Forall_cons; [vm_compute; lia|]).
      apply List.Forall_nil.
  - vm_compute. right. left. reflexivity.
Defined.

Lemma insert_delete_roundtrip_witness :
  deleteContact x86_64_sysv
    (fst (insertContact x86_64_sysv true phonebook0 alice phone123)) alice
  = (phonebook0, [OutDeleted alice]).
Proof.
  apply (insert_delete_roundtrip x86_64_sysv phonebook0 alice phone123).
  - wf_by_computation.
  - vm_compute. lia.
Defined.

Lemma insert_preserves_other_lookups_witness :
  searchContact x86_64_sysv
    (fst (insertContact x86_64_sysv true
            (fst (insertContact x86_64_sysv true phonebook0 bob phone456))
            alice phone123)) bob
  = searchContact x86_64_sysv
      (fst (insertContact x86_64_sysv true phonebook0 bob phone456)) bob.
Proof.
  apply (insert_preserves_other_lookups x86_64_sysv true
           (fst (insertContact x86_64_sysv true phonebook0 bob phone456))
           alice phone123 bob).
  - wf_by_computation.
  - vm_compute. discriminate.
Defined.

Lemma delete_preserves_other_lookups_witness :
  searchContact x86_64_sysv
    (fst (deleteContact x86_64_sysv
            (run x86_64_sysv phonebook0
               [OpInsert true alice phone123; OpInsert true bob phone456])
            alice)) bob
  = searchContact x86_64_sysv
      (run x86_64_sysv phonebook0
         [OpInsert true alice phone123; OpInsert true bob phone456]) bob.
Proof.
  apply (delete_preserves_other_lookups x86_64_sysv
           (run x86_64_sysv phonebook0
              [OpInsert true alice phone123; OpInsert true bob phone456])
           alice bob).
  - wf_by_computation.
  - vm_compute. discriminate.
Defined.

Lemma search_after_deletes_witness :
  searchContact x86_64_sysv
    (delete_n x86_64_sysv
       (run x86_64_sysv phonebook0
          [OpInsert true alice phone123; OpInsert true alice phone456])
       alice 2) alice
  = None.
Proof.
  refine (proj1 (search_after_deletes x86_64_sysv
                   (run x86_64_sysv phonebook0
                      [OpInsert true alice phone123;
                       OpInsert true alice phone456])
                   alice 2 _ _)).
  - wf_by_computation.
  - vm_compute. reflexivity.
Defined.

Lemma entry_count_balance_witness :
  (entry_count
     (fst (run_out x86_64_sysv phonebook0
             [OpInsert true alice phone123; OpInsert false bob phone456;
              OpDelete bob; OpDelete alice]))
   + length (List.filter is_deleted
               (snd (run_out x86_64_sysv phonebook0
                       [OpInsert true alice phone123;
                        OpInsert false bob phone456;
                        OpDelete bob; OpDelete alice])))
   = entry_count phonebook0
     + length (List.filter is_added
                 (snd (run_out x86_64_sysv phonebook0
                         [OpInsert true alice phone123;
                          OpInsert false bob phone456;
                          OpDelete bob; OpDelete alice]))))%nat.
Proof.
  refine (proj2 (entry_count_balance x86_64_sysv
                   [OpInsert true alice phone123; OpInsert false bob phone456;
                    OpDelete bob; OpDelete alice] phonebook0 _)).
  wf_by_computation.
Defined.

Lemma stored_fields_fit_witness :
  fields_fit
    (run x86_64_sysv phonebook0
       [OpInsert true name50 phone15; OpInsert true alice phone123]).
Proof.
  apply (stored_fields_fit x86_64_sysv 100 phonebook0
           [OpInsert true name50 phone15; OpInsert true alice phone123]).
  reflexivity.
Defined.

Lemma display_reports_empty_witness :
  displayContacts phonebook0 = (phonebook0, [OutHeader; OutEmpty; OutFooter]).
Proof.
  refine (proj1 (display_reports_empty phonebook0 _) _).
  - vm_compute. reflexivity.
  - vm_compute. reflexivity.
Defined.

Lemma display_bucket_lines_witness :
  bucket_lines
    (snd (displayContacts
            (run x86_64_sysv phonebook0
               [OpInsert true alice phone123; OpInsert true bob phone456])))
  = nonempty_from 0
      (table (run x86_64_sysv phonebook0
                [OpInsert true alice phone123; OpInsert true bob phone456])).
Proof.
  apply (display_bucket_lines
           (run x86_64_sysv phonebook0
              [OpInsert true alice phone123; OpInsert true bob phone456])).
  vm_compute. reflexivity.
Defined.

Lemma createHashTable_fresh_witness :
  searchContact x86_64_sysv phonebook0 alice = None
  /\ displayContacts phonebook0
     = (phonebook0, [OutHeader; OutEmpty; OutFooter]).
Proof.
  pose proof (proj2 (createHashTable_fresh x86_64_sysv true true 100)
                phonebook0 eq_refl) as (_ & _ & _ & Hsearch & Hdisplay).
  split; [|exact Hdisplay].
  apply Hsearch. unfold INT_MAX. lia.
Defined.

Lemma freeHashTable_frees_all_witness :
  freed_nodes
    (freeHashTable
       (Some (run x86_64_sysv phonebook0
                [OpInsert true alice phone123; OpInsert true bob phone456])))
  = concat
      (table (run x86_64_sysv phonebook0
                [OpInsert true alice phone123; OpInsert true bob phone456])).
Proof.
  refine (proj1 (proj2 (freeHashTable_frees_all
                          (run x86_64_sysv phonebook0
                             [OpInsert true alice phone123;
                              OpInsert true bob phone456]) _))).
  vm_compute. reflexivity.
Defined.

Lemma clearInputBuffer_skips_line_witness :
  clearInputBuffer (alice ++ newline :: phone123) = phone123.
Proof.
  refine (proj1 (clearInputBuffer_skips_line alice phone123 _)).
  no_such_byte.
Defined.

Lemma fgets_strip_fits_witness :
  (length (fst (fgets_strip MAX_NAME_LEN [] (name50 ++ [newline])))
   < MAX_NAME_LEN)%nat.
Proof.
  refine (proj1 (fgets_strip_fits MAX_NAME_LEN [] (name50 ++ [newline]) _)).
  vm_compute. lia.
Defined.

Lemma fgets_strip_line_witness :
  fgets_strip MAX_NAME_LEN [] (alice ++ newline :: phone123)
  = (alice, phone123).
Proof.
  refine (proj1 (fgets_strip_line MAX_NAME_LEN [] alice phone123 _ _ _)).
  - no_such_byte.
  - no_such_byte.
  - vm_compute. lia.
Defined.

Lemma fgets_strip_overlong_witness :
  fgets_strip MAX_NAME_LEN [] (name50 ++ newline :: phone123)
  = (take (MAX_NAME_LEN - 1) name50,
     drop (MAX_NAME_LEN - 1) name50 ++ newline :: phone123).
Proof.
  apply (fgets_strip_overlong MAX_NAME_LEN [] name50 phone123).
  - no_such_byte.
  - no_such_byte.
  - vm_compute. lia.
  - vm_compute. lia.
Defined.

Lemma main_keeps_invariant_witness :
  main_inv x86_64_sysv
    (match snd (main x86_64_sysv scanf_decimal never_fails (true, true)
                  [] [] 2 input_add_search) with
     | inl st => st
     | inr _ => state0 []
     end).
Proof.
  refine (proj1 (main_keeps_invariant x86_64_sysv scanf_decimal never_fails
                   (true, true) [] [] 2 input_add_search
                   (fst (main x86_64_sysv scanf_decimal never_fails
                           (true, true) [] [] 2 input_add_search))
                   _ _ _ _)).
  - vm_compute. lia.
  - vm_compute. lia.
  - vm_compute. reflexivity.
Defined.

Lemma main_loops_at_end_of_input_witness :
  main_loop x86_64_sysv scanf_decimal never_fails 3 (state0 [])
  = (concat (replicate 3 [OutMenu; OutInvalidInput]), inl (state0 [])).
Proof.
  apply (main_loops_at_end_of_input x86_64_sysv scanf_decimal never_fails
           3 (state0 [])); reflexivity.
Defined.

Lemma main_frees_every_node_witness :
  ((true, true) <> (true, true) /\ 0 = EXIT_FAILURE
   /\ fst (main x86_64_sysv scanf_decimal never_fails (true, true)
             [] [] 5 input_add_exit)
      = [OutCreateFailed])
  \/ ((true, true) = (true, true) /\ 0 = 0
      /\ (length (List.filter main_freed
                    (fst (main x86_64_sysv scanf_decimal never_fails
                            (true, true) [] [] 5 input_add_exit)))
          + length (List.filter main_deleted
                      (fst (main x86_64_sysv scanf_decimal never_fails
                              (true, true) [] [] 5 input_add_exit)))
          = length (List.filter main_added
                      (fst (main x86_64_sysv scanf_decimal never_fails
                              (true, true) [] [] 5 input_add_exit))))%nat).
Proof.
  apply (main_frees_every_node x86_64_sysv scanf_decimal never_fails
           (true, true) [] [] 5 input_add_exit).
  vm_compute. reflexivity.
Defined.

Lemma main_add_then_search_witness :
  main_loop x86_64_sysv scanf_decimal never_fails 2
    (state0 input_add_search)
  = ([OutMenu; OutPromptName; OutPromptPhone;
      OutCore (OutAdded alice phone123);
      OutMenu; OutPromptSearch; OutFound alice phone123],
     inl {| m_stdin := [];
            m_phonebook :=
              fst (insertContact x86_64_sysv true phonebook0 alice phone123);
            m_name := alice; m_phone := phone123; m_mallocs := 1 |}).
Proof.
  apply (main_add_then_search x86_64_sysv scanf_decimal never_fails
           (state0 input_add_search)
           (x0a :: alice ++ [x0a] ++ phone123 ++ [x0a]
              ++ [x32; x0a] ++ alice ++ [x0a])
           ([x32; x0a] ++ alice ++ [x0a])
           (x0a :: alice ++ [x0a]) [] alice phone123).
  - wf_by_computation.
  - no_such_byte.
  - no_such_byte.
  - vm_compute. lia.
  - no_such_byte.
  - no_such_byte.
  - vm_compute. lia.
  - reflexivity.
  - reflexivity.
  - reflexivity.
  - reflexivity.
  - reflexivity.
Defined.

Lemma main_add_long_name_line_witness :
  main_iteration x86_64_sysv scanf_decimal never_fails
    (state0 input_long_name)
  = ([OutMenu; OutPromptName; OutPromptPhone]
       ++ map OutCore
            (snd (insertContact x86_64_sysv true phonebook0 name49 [])),
     inl {| m_stdin := phone123 ++ [x0a];
            m_phonebook :=
              fst (insertContact x86_64_sysv true phonebook0 name49 []);
            m_name := name49; m_phone := []; m_mallocs := 1 |}).
Proof.
  apply (main_add_long_name_line x86_64_sysv scanf_decimal never_fails
           (state0 input_long_name)
           (x0a :: name49 ++ [x0a] ++ phone123 ++ [x0a])
           (phone123 ++ [x0a]) name49 []).
  - no_such_byte.
  - no_such_byte.
  - reflexivity.
  - no_such_byte.
  - no_such_byte.
  - vm_compute. lia.
  - reflexivity.
  - reflexivity.
Defined.

Lemma main_add_at_end_of_input_witness :
  main_iteration x86_64_sysv scanf_decimal never_fails
    {| m_stdin := [x31; x0a];
       m_phonebook :=
         fst (insertContact x86_64_sysv true phonebook0 alice phone123);
       m_name := alice; m_phone := phone123; m_mallocs := 1 |}
  = ([OutMenu; OutPromptName; OutPromptPhone]
       ++ map OutCore
            (snd (insertContact x86_64_sysv true
                    (fst (insertContact x86_64_sysv true phonebook0
                            alice phone123))
                    alice phone123)),
     inl {| m_stdin := [];
            m_phonebook :=
              fst (insertContact x86_64_sysv true
                     (fst (insertContact x86_64_sysv true phonebook0
                             alice phone123))
                     alice phone123);
            m_name := alice; m_phone := phone123; m_mallocs := 2 |}).
Proof.
  apply (main_add_at_end_of_input x86_64_sysv scanf_decimal never_fails
           {| m_stdin := [x31; x0a];
              m_phonebook :=
                fst (insertContact x86_64_sysv true phonebook0 alice phone123);
              m_name := alice; m_phone := phone123; m_mallocs := 1 |}
           [x0a]).
  - no_such_byte.
  - no_such_byte.
  - reflexivity.
  - reflexivity.
Defined.
